(** * Hybrid text-extraction pipeline: a shallow embedding and its properties

    The development follows the two modules of the pipeline,
    [src/pipeline/pdf_utils.py] (direct text, corruption heuristic, page
    orchestrator) and [src/pipeline/ocr.py] (detection-to-text reconstruction,
    OCR invoker).

    Conventions of the embedding.
    - A Python [str] is a list of Unicode code points ([N]).
    - A Python [int] is a [Z].  A Python [float] is the rational [Q] it
      denotes: in the reconstructor every arithmetic operation on floats
      is the exact operation followed by the rounding of binary64
      ([round64]: 53 bits, to nearest, ties to even), a decimal literal
      is the rounding of its value, and comparisons are exact.  Infinities
      and NaN are not modelled: the model is that of binary64 as long as
      every value stays below 2 ** 1024 in magnitude, which the statements
      on arithmetic ensure by bounding the coordinates.
      The proportions of the corruption heuristic are kept as exact
      quotients of two lengths.
    - A Python exception is a value of [exn]; code that may raise returns a
      [result].  Code that touches the outside world (the PDF reader, the
      rasteriser, the image preprocessor, the OCR engine) runs in a small
      state-and-exception monad whose state holds the memoised engine handle
      and the log of calls made to those collaborators. *)

From Stdlib Require Import String Ascii DecimalString.
From Stdlib Require Import ZArith NArith QArith Qabs Qround Qpower Qminmax Lia Lqa Bool.
From Stdlib Require Import List Permutation Sorted.
Import ListNotations.
Local Open Scope Z_scope.

(* ================================================================== *)
(** * Python values: exceptions, strings                               *)
(* ================================================================== *)

Inductive exn : Type :=
| ZeroDivisionError
| ValueError
| IndexError
| RuntimeError.

Inductive result (A : Type) : Type :=
| Ok (a : A)
| Raise (e : exn).
Arguments Ok {A} a.
Arguments Raise {A} e.

Definition rbind {A B} (r : result A) (k : A -> result B) : result B :=
  match r with
  | Ok a => k a
  | Raise e => Raise e
  end.

Declare Scope res_scope.
Delimit Scope res_scope with res.
Notation "x <- r ;; k" := (rbind r (fun x => k))
  (at level 61, r at next level, right associativity) : res_scope.

Module Py.

(** A character is a Unicode code point, a string a list of them. *)
Definition char := N.
Definition str := list char.

(** Decoding of a UTF-8 string literal of this file into code points. *)
Fixpoint utf8_go (bs : list N) (acc : N) (need : nat) : str :=
  match bs with
  | [] => []
  | b :: bs' =>
      match need with
      | S k =>
          let acc' := (acc * 64 + b mod 64)%N in
          match k with
          | O => acc' :: utf8_go bs' 0%N O
          | S _ => utf8_go bs' acc' k
          end
      | O =>
          if (b <? 128)%N then b :: utf8_go bs' 0%N O
          else if (b <? 224)%N then utf8_go bs' (b mod 32)%N 1%nat
          else if (b <? 240)%N then utf8_go bs' (b mod 16)%N 2%nat
          else utf8_go bs' (b mod 8)%N 3%nat
      end
  end.

Definition lit (s : string) : str :=
  utf8_go (map N_of_ascii (list_ascii_of_string s)) 0%N O.

Definition NL : char := 10%N.
Definition SP : char := 32%N.

(** [len(x)] *)
Definition len {A} (l : list A) : Z := Z.of_nat (length l).

(** [str.isspace] for one character: the characters of bidirectional
    class WS, B or S and of category Zs. *)
Definition isspace (c : char) : bool :=
  ((9 <=? c) && (c <=? 13) || (28 <=? c) && (c <=? 32)
   || (c =? 133) || (c =? 160) || (c =? 5760)
   || (8192 <=? c) && (c <=? 8202)
   || (c =? 8232) || (c =? 8233) || (c =? 8239) || (c =? 8287)
   || (c =? 12288))%N.

Fixpoint lstrip (s : str) : str :=
  match s with
  | [] => []
  | c :: s' => if isspace c then lstrip s' else s
  end.

Definition rstrip (s : str) : str := rev (lstrip (rev s)).

(** [s.strip()] *)
Definition strip (s : str) : str := rstrip (lstrip s).

(** [sep.join(parts)] *)
Fixpoint join (sep : str) (parts : list str) : str :=
  match parts with
  | [] => []
  | [p] => p
  | p :: ps => p ++ sep ++ join sep ps
  end.

(** [s.replace("\n", "")] *)
Definition remove_newlines (s : str) : str :=
  filter (fun c => negb (c =? NL)%N) s.

Fixpoint startswith (s p : str) : bool :=
  match p, s with
  | [], _ => true
  | _ :: _, [] => false
  | a :: p', b :: s' => (a =? b)%N && startswith s' p'
  end.

(** [sub in s] *)
Fixpoint contains (s sub : str) : bool :=
  startswith s sub ||
  match s with
  | [] => false
  | _ :: s' => contains s' sub
  end.

(** [len(set(s))] *)
Definition distinct (s : str) : Z := len (nodup N.eq_dec s).

(** [sum(1 for ch in s if p(ch))] *)
Definition count (p : char -> bool) (s : str) : Z := len (filter p s).

(** [a / b] on integers: true division, which raises on a zero divisor. *)
Definition truediv (a b : Z) : result Q :=
  if b =? 0 then Raise ZeroDivisionError
  else Ok (inject_Z a / inject_Z b)%Q.

(** [str(n)] for a non-negative integer. *)
Definition str_of_nat (n : nat) : str :=
  map N_of_ascii (list_ascii_of_string (NilZero.string_of_uint (Nat.to_uint n))).

(** [x < y] and [x <= y] on floats, as booleans. *)
Definition Qltb (x y : Q) : bool := negb (Qle_bool y x).
Definition Qleb (x y : Q) : bool := Qle_bool x y.

End Py.
Import Py.

(* ================================================================== *)
(** * Python floats: binary64                                          *)
(* ================================================================== *)

Module Float.

(** [2 ** e] *)
Definition pow2 (e : Z) : Q := (2 ^ e)%Q.

(** Rounding to the nearest integer, a tie going to the even one. *)
Definition rne (q : Q) : Z :=
  let f := Qfloor q in
  match (q - inject_Z f ?= 1 # 2)%Q with
  | Lt => f
  | Gt => f + 1
  | Eq => if Z.even f then f else f + 1
  end.

(** The exponent of the binade of a positive rational: the [e] with
    [2 ** e <= q < 2 ** (e + 1)]. *)
Definition ilog2 (q : Q) : Z :=
  let e0 := Z.log2 (Qnum q) - Z.log2 (Zpos (Qden q)) in
  if Qle_bool (pow2 e0) q then e0 else e0 - 1.

(** Binary64: 53 bits of precision; the smallest positive number is
    [2 ** -1074]. *)
Definition emin : Z := -1074.

(** The exponent of the unit in the last place at [q]. *)
Definition ulp_exp (q : Q) : Z := Z.max (ilog2 q - 52) emin.

Definition round_pos (q : Q) : Q :=
  (inject_Z (rne (q / pow2 (ulp_exp q))) * pow2 (ulp_exp q))%Q.

(** The binary64 number nearest to [q], ties to even. *)
Definition round64 (q : Q) : Q :=
  match Qnum q with
  | Z0 => 0%Q
  | Zpos _ => round_pos q
  | Zneg _ => (- round_pos (- q))%Q
  end.


(** A number of Python: an [int] or a [float]. *)
Inductive number : Type :=
| PyInt (n : Z)
| PyFloat (x : Q).

(** The rational a number denotes. *)
Definition value_of (v : number) : Q :=
  match v with
  | PyInt n => inject_Z n
  | PyFloat x => x
  end.

(** [float(n)]: the conversion an [int] operand undergoes next to a
    [float] one. *)
Definition float_of_int (n : Z) : Q := round64 (inject_Z n).

Definition as_float (v : number) : Q :=
  match v with
  | PyInt n => float_of_int n
  | PyFloat x => x
  end.

(** A decimal literal. *)
Definition float_literal (q : Q) : Q := round64 q.

(** [x * y], [x + y], [x - y] and [x / y] on floats. *)
Definition fmul (x y : Q) : Q := round64 (x * y).
Definition fadd (x y : Q) : Q := round64 (x + y).
Definition fsub (x y : Q) : Q := round64 (x - y).
Definition fdiv (x y : Q) : Q := round64 (x / y).

(** [a / b] on two [int]: the quotient, correctly rounded. *)
Definition int_truediv (a b : Z) : Q := round64 (inject_Z a / inject_Z b).

End Float.
Import Float.

(* ================================================================== *)
(** * pdf_utils.py: the corruption heuristic                           *)
(* ================================================================== *)

Module Heuristic.
Section WithAlphabet.

(** [str.isalpha] for one character is the Unicode table of letters
    (categories Lu, Ll, Lt, Lm, Lo); the heuristic is modelled over any
    such table. *)
Variable isalpha : char -> bool.

(** The set literal [{'I', 'l', '|', 'ı', 'İ'}]. *)
Definition broken_glyphs : list char := lit "Il|ıİ".

Definition is_broken_glyph (c : char) : bool :=
  existsb (fun g => (c =? g)%N) broken_glyphs.

(** ['А' <= ch <= 'я' or ch in 'Ёё'] *)
Definition is_cyrillic (c : char) : bool :=
  ((1040 <=? c) && (c <=? 1103))%N || contains (lit "Ёё") [c].

Definition keywords : list str :=
  map lit ["КОНТРАКТ"; "Дата"; "Контрагент"; "Страна"; "Валюта"; "Сумма"]%string.

Definition has_keyword (text : str) : bool :=
  existsb (fun kw => contains text kw) keywords.

Definition _looks_corrupted_text (text : str) : result bool :=
  match text with
  | [] => Ok true
  | _ :: _ =>
      let s := remove_newlines text in
      if len s <? 20 then Ok true
      else
        (uniq_ratio <- truediv (distinct s) (len s) ;;
         let letters := filter isalpha s in
         bad_ratio <-
           match letters with
           | _ :: _ => truediv (count is_broken_glyph letters) (len letters)
           | [] => Ok 0%Q
           end ;;
         cyr_ratio <- truediv (count is_cyrillic s) (len s) ;;
         if Qleb (1 # 2) bad_ratio then Ok true
         else if Qltb uniq_ratio (20 # 100) && (0 <? len letters) then Ok true
         else if has_keyword text && Qltb cyr_ratio (2 # 100) then Ok true
         else Ok false)%res
  end.

End WithAlphabet.
End Heuristic.
Import Heuristic.

(* ================================================================== *)
(** * The corruption heuristic, as the specification words it          *)
(* ================================================================== *)

Module HeuristicSpec.
Section WithAlphabet.

Variable isalpha : char -> bool.

(** "After removing newlines": the characters of the text other than
    U+000A, in their order. *)
Inductive without_newlines : str -> str -> Prop :=
| wn_nil : without_newlines [] []
| wn_skip (text s : str) :
    without_newlines text s -> without_newlines (10%N :: text) s
| wn_keep (c : char) (text s : str) :
    c <> 10%N -> without_newlines text s ->
    without_newlines (c :: text) (c :: s).

(** The broken-glyph set: I, l, |, dotless i, dotted capital I. *)
Definition broken_glyph (c : char) : bool :=
  ((c =? 73) || (c =? 108) || (c =? 124) || (c =? 305) || (c =? 304))%N.

(** A character of the target script: U+0410 to U+044F, U+0401, U+0451. *)
Definition cyrillic (c : char) : bool :=
  ((1040 <=? c) && (c <=? 1103) || (c =? 1025) || (c =? 1105))%N.

(** The expected labels: contract, date, counterparty, country,
    currency, amount. *)
Definition domain_keywords : list str :=
  map lit ["КОНТРАКТ"; "Дата"; "Контрагент"; "Страна"; "Валюта"; "Сумма"]%string.

(** How many characters of [s] satisfy [p]. *)
Fixpoint how_many (p : char -> bool) (s : str) : nat :=
  match s with
  | [] => 0
  | c :: s' => (if p c then 1 else 0) + how_many p s'
  end.

(** The proportion [k] out of [n]. *)
Definition proportion (k n : nat) : Q :=
  (inject_Z (Z.of_nat k) / inject_Z (Z.of_nat n))%Q.

(** (1) Length under 20 characters. *)
Definition short (s : str) : Prop := (length s < 20)%nat.

(** (2) Among alphabetic characters, the fraction belonging to the
    broken-glyph set is at least 0.5. *)
Definition mostly_broken_glyphs (s : str) : Prop :=
  (0 < how_many isalpha s)%nat /\
  (1 # 2 <= proportion (how_many (fun c => isalpha c && broken_glyph c) s)
                       (how_many isalpha s))%Q.

(** (3) The ratio of distinct characters to characters is below 0.20
    while an alphabetic character is present. *)
Definition low_diversity (s : str) : Prop :=
  (exists u, NoDup u /\ (forall c, In c u <-> In c s)
             /\ (proportion (length u) (length s) < 20 # 100)%Q) /\
  (exists c, In c s /\ isalpha c = true).

(** (4) The text contains an expected keyword, yet the proportion of
    Cyrillic characters is below 0.02. *)
Definition keyword_without_script (text s : str) : Prop :=
  (exists kw pre post, In kw domain_keywords /\ text = pre ++ kw ++ post) /\
  (proportion (how_many cyrillic s) (length s) < 2 # 100)%Q.

Definition spec_looks_corrupted (text : str) : Prop :=
  exists s,
    without_newlines text s /\
    (short s \/ mostly_broken_glyphs s \/ low_diversity s
     \/ keyword_without_script text s).

End WithAlphabet.
End HeuristicSpec.
Import HeuristicSpec.

(* ================================================================== *)
(** * ocr.py: the detection-to-text reconstructor                      *)
(* ================================================================== *)

(** One detection of the legacy response, [(box, (text, confidence))]:
    the corners of the bounding polygon, the recognised string and its
    confidence. *)
Record detection : Type := Detection {
  det_box : list (Q * Q);
  det_text : str;
  det_conf : Q
}.

(** The dictionary built for a detection by [_group_boxes_to_lines]. *)
Module Box.
Record t : Type := Make {
  text : str;
  left : Z;
  right : Z;
  mid_y : Q;
  height : Z
}.
End Box.

Module Reconstruct.

(** [int(x)] on a float: truncation towards zero. *)
Definition py_int (q : Q) : Z := Z.quot (Qnum q) (Zpos (Qden q)).

(** [min(xs)] and [max(xs)], which raise on an empty sequence. *)
Definition py_min (xs : list Z) : result Z :=
  match xs with
  | [] => Raise ValueError
  | x :: r => Ok (fold_left Z.min r x)
  end.

Definition py_max (xs : list Z) : result Z :=
  match xs with
  | [] => Raise ValueError
  | x :: r => Ok (fold_left Z.max r x)
  end.

(** [list.sort(key=...)]: a stable sort, as insertion sort on the
    "key not greater" test. *)
Fixpoint insert {A} (le : A -> A -> bool) (x : A) (l : list A) : list A :=
  match l with
  | [] => [x]
  | y :: l' => if le x y then x :: l else y :: insert le x l'
  end.

Definition sort_by {A} (le : A -> A -> bool) (l : list A) : list A :=
  fold_right (insert le) [] l.

(** [statistics.median] of a list of integers: the middle element, or
    the true quotient by 2 of the sum of the two middle ones. *)
Definition median (data : list Z) : result number :=
  let d := sort_by Z.leb data in
  let n := length d in
  match n with
  | O => Raise ValueError
  | S _ =>
      if Nat.odd n then Ok (PyInt (nth (n / 2) d 0%Z))
      else
        let i := (n / 2)%nat in
        Ok (PyFloat (int_truediv (nth (i - 1) d 0%Z + nth i d 0%Z) 2))
  end.

(** The body of the first loop of [_group_boxes_to_lines]. *)
Definition make_box (item : detection) : result Box.t :=
  (let xs := map (fun p => py_int (fst p)) (det_box item) in
   let ys := map (fun p => py_int (snd p)) (det_box item) in
   left <- py_min xs ;;
   right <- py_max xs ;;
   top <- py_min ys ;;
   bottom <- py_max ys ;;
   Ok (Box.Make (det_text item) left right
                (int_truediv (top + bottom) 2)
                (Z.max 1 (bottom - top))))%res.

Fixpoint make_boxes (items : list detection) : result (list Box.t) :=
  match items with
  | [] => Ok []
  | item :: items' =>
      (b <- make_box item ;;
       bs <- make_boxes items' ;;
       Ok (b :: bs))%res
  end.

(** Key [(b["mid_y"], b["left"])], compared as Python compares tuples. *)
Definition key_le (a b : Box.t) : bool :=
  Qltb (Box.mid_y a) (Box.mid_y b)
  || Qeq_bool (Box.mid_y a) (Box.mid_y b) && (Box.left a <=? Box.left b).

Definition left_le (a b : Box.t) : bool := Box.left a <=? Box.left b.

(** [gap > median_h * 0.7]: the product is a float, the gap an [int],
    and the comparison of the two is exact. *)
Definition word_break (median_h : number) (prev b : Box.t) : bool :=
  Qltb (fmul (as_float median_h) (float_literal (7 # 10)))
       (inject_Z (Box.left b - Box.right prev)).

(** The loop of [_merge_boxes_into_words]: [words] and [current_word]
    are the loop's variables, [prev] is [boxes[i - 1]]. *)
Fixpoint merge_loop (median_h : number) (words : list str) (current_word : str)
         (prev : Box.t) (rest : list Box.t) : list str :=
  match rest with
  | [] => words ++ [current_word]
  | b :: rest' =>
      if word_break median_h prev b
      then merge_loop median_h (words ++ [current_word]) (Box.text b) b rest'
      else merge_loop median_h words (current_word ++ Box.text b) b rest'
  end.

Definition _merge_boxes_into_words (boxes : list Box.t) (median_h : number)
  : str :=
  match sort_by left_le boxes with
  | [] => []
  | b0 :: rest => join [SP] (merge_loop median_h [] (Box.text b0) b0 rest)
  end.

(** [max(8, median_h * 0.6)]: the [int] 8 unless the product is greater. *)
Definition line_tol (median_h : number) : Q :=
  let t := fmul (as_float median_h) (float_literal (6 # 10)) in
  if Qltb 8 t then t else 8%Q.

(** [abs(b["mid_y"] - cur_y) <= line_tol] *)
Definition same_line (tol cur_y : Q) (b : Box.t) : bool :=
  Qleb (Qabs (fsub (Box.mid_y b) cur_y)) tol.

(** [(cur_y * (len(current) - 1) + b["mid_y"]) / len(current)], with
    [current] already holding [b]. *)
Definition update_avg (cur_y : Q) (current : list Box.t) (b : Box.t) : Q :=
  fdiv (fadd (fmul cur_y (float_of_int (len current - 1))) (Box.mid_y b))
       (float_of_int (len current)).

(** The grouping loop: [lines], [current] and [cur_y] are its variables. *)
Fixpoint group_loop (median_h : number) (tol : Q) (lines : list str)
         (current : list Box.t) (cur_y : Q) (rest : list Box.t)
  : list str * list Box.t :=
  match rest with
  | [] => (lines, current)
  | b :: rest' =>
      if same_line tol cur_y b then
        let current' := current ++ [b] in
        group_loop median_h tol lines current' (update_avg cur_y current' b) rest'
      else
        group_loop median_h tol
                   (lines ++ [_merge_boxes_into_words current median_h])
                   [b] (Box.mid_y b) rest'
  end.

Definition _group_boxes_to_lines (items : list detection) : result (list str) :=
  (boxes <- make_boxes items ;;
   match sort_by key_le boxes with
   | [] => Ok []
   | b0 :: rest =>
       median_h <- median (map Box.height (b0 :: rest)) ;;
       let '(lines, current) :=
         group_loop median_h (line_tol median_h) [] [b0] (Box.mid_y b0) rest in
       match current with
       | [] => Ok lines
       | _ :: _ => Ok (lines ++ [_merge_boxes_into_words current median_h])
       end
   end)%res.

(** The response of the engine call [ocr_model.ocr(arr)]. *)
Inductive ocr_response : Type :=
| RespNone                                   (* [None] or an empty list *)
| RespStructured (rec_texts : list str) (rec_scores : list Q)
                                             (* [[{rec_texts, rec_scores}]] *)
| RespLegacyNested (items : list detection)  (* [[[item, ...]]] *)
| RespLegacyFlat (items : list detection).   (* [[item, ...]] *)

(** [_flatten_result], on the two legacy shapes. *)
Definition _flatten_result (r : ocr_response) : list detection :=
  match r with
  | RespLegacyNested items => items
  | RespLegacyFlat items => items
  | _ => []
  end.

Definition _parse_old_format (r : ocr_response) : str :=
  let items := _flatten_result r in
  match _group_boxes_to_lines items with
  | Raise _ => []
  | Ok [] => join [SP] (map det_text items)
  | Ok lines => join [NL] lines
  end.

(** The structured branch of [run_ocr]: the loop over [rec_texts]. *)
Fixpoint structured_lines (i : nat) (rec_texts : list str) (rec_scores : list Q)
  : list str :=
  match rec_texts with
  | [] => []
  | text :: texts' =>
      let confidence := nth i rec_scores 0%Q in
      if Qltb (5 # 10) confidence
      then text :: structured_lines (S i) texts' rec_scores
      else structured_lines (S i) texts' rec_scores
  end.

(** What [run_ocr] makes of the engine's response. *)
Definition assemble (r : ocr_response) : str :=
  match r with
  | RespNone => []
  | RespStructured rec_texts rec_scores =>
      join [NL] (structured_lines 0 rec_texts rec_scores)
  | RespLegacyFlat [] => []
  | RespLegacyNested _ | RespLegacyFlat _ => _parse_old_format r
  end.

End Reconstruct.
Import Reconstruct.

(* ================================================================== *)
(** * The outside world: images, pages, the engine                     *)
(* ================================================================== *)

(** An image is known by how it was obtained; its pixels are the business
    of the rendering and imaging libraries. *)
Inductive image : Type :=
| PagePixmap (page_index : nat) (dpi : Z)
    (* [page.get_pixmap(matrix=fitz.Matrix(dpi / 72, dpi / 72))] as a PIL image *)
| Pdf2Image (page_index : nat) (dpi : Z)
    (* an element of [pdf2image.convert_from_bytes(..., dpi=dpi, ...)] *)
| Preprocessed (src : image) (strong : bool)
    (* [preprocess_pil_image(src, strong=strong)] *)
| ConvertRGB (src : image)
    (* [src.convert("RGB")] *)
| Thumbnail (src : image).
    (* [src.thumbnail((2200, 2200), LANCZOS)] *)

(** The resolution at which the page behind an image was rasterised. *)
Fixpoint raster_dpi (img : image) : Z :=
  match img with
  | PagePixmap _ dpi => dpi
  | Pdf2Image _ dpi => dpi
  | Preprocessed src _ => raster_dpi src
  | ConvertRGB src => raster_dpi src
  | Thumbnail src => raster_dpi src
  end.

(** A block of [page.get_text("blocks")]: [(x0, y0, x1, y1, text, ...)];
    [blk_text] is [None] when the fifth component is not a string. *)
Record block : Type := Block {
  blk_x0 : Q;
  blk_y0 : Q;
  blk_x1 : Q;
  blk_y1 : Q;
  blk_text : option str
}.

(** A page of an opened document, as the reader answers for it. *)
Record page : Type := Page {
  get_text_blocks : result (list block);   (* [page.get_text("blocks")] *)
  get_text_plain : result str;             (* [page.get_text("text")] *)
  get_pixmap_ok : Z -> bool                (* does rasterising at this dpi succeed *)
}.

(** The PDF byte stream, as the two readers answer for it. *)
Record pdf : Type := Pdf {
  fitz_open : result (list (result page));
    (* [fitz.open(...)], then [doc[i]] for each index *)
  convert_from_bytes : Z -> Z -> result nat
    (* [pdf2image.convert_from_bytes(dpi, last_page)]: how many images *)
}.

(** The imaging library and the OCR engine. *)
Record world : Type := World {
  img_width : image -> Z;
  img_height : image -> Z;
  preprocess_ok : image -> bool -> bool;
    (* does [preprocess_pil_image] return, or raise *)
  engine_init : nat -> bool;
    (* does the n-th construction of [PaddleOCR(lang='ru')] succeed *)
  engine_ocr : image -> result ocr_response
    (* [ocr_model.ocr(np.array(img))] *)
}.

(** Calls made to the collaborators, in order. *)
Inductive event : Type :=
| EvLoadModel (ok : bool)
| EvPixmap (page_index : nat) (dpi : Z)
| EvPdf2Image (dpi : Z) (last_page : Z)
| EvPreprocess (img : image) (strong : bool)
| EvEngineOcr (img : image).

(** The process state: the module-level [_ocr_model] and the log. *)
Record state : Type := State {
  ocr_model_loaded : bool;
  load_attempts : nat;
  log : list event
}.

Definition initial_state : state := State false 0 [].

(** The monad of the pipeline: state and exceptions; the state survives
    an exception. *)
Definition M (A : Type) : Type := state -> result A * state.

Definition ret {A} (a : A) : M A := fun st => (Ok a, st).
Definition raise {A} (e : exn) : M A := fun st => (Raise e, st).

Definition bind {A B} (m : M A) (k : A -> M B) : M B :=
  fun st =>
    match m st with
    | (Ok a, st') => k a st'
    | (Raise e, st') => (Raise e, st')
    end.

(** [try: m  except Exception: h] *)
Definition catch {A} (m : M A) (h : exn -> M A) : M A :=
  fun st =>
    match m st with
    | (Ok a, st') => (Ok a, st')
    | (Raise e, st') => h e st'
    end.

Definition lift {A} (r : result A) : M A := fun st => (r, st).

Definition emit (e : event) : M unit :=
  fun st => (Ok tt, State (ocr_model_loaded st) (load_attempts st) (log st ++ [e])).

Declare Scope pipe_scope.
Delimit Scope pipe_scope with pipe.
Notation "x <- m ;; k" := (bind m (fun x => k))
  (at level 61, m at next level, right associativity) : pipe_scope.
Notation "m ;;; k" := (bind m (fun _ => k))
  (at level 61, right associativity) : pipe_scope.

(* ================================================================== *)
(** * ocr.py: the OCR invoker                                          *)
(* ================================================================== *)

Module Ocr.
Section WithWorld.

Variable W : world.

Definition _get_ocr_model : M unit :=
  fun st =>
    if ocr_model_loaded st then (Ok tt, st)
    else
      let ok := engine_init W (load_attempts st) in
      let st' := State ok (S (load_attempts st)) (log st ++ [EvLoadModel ok]) in
      if ok then (Ok tt, st') else (Raise RuntimeError, st').

Definition preprocess_pil_image (pil_img : image) (strong : bool) : M image :=
  (emit (EvPreprocess pil_img strong) ;;;
   if preprocess_ok W pil_img strong
   then ret (Preprocessed pil_img strong)
   else raise RuntimeError)%pipe.

Definition max_size : Z := 2200.

Definition run_ocr (pil_img : image) (do_preprocess : bool) : M str :=
  (catch
     (_get_ocr_model ;;;
      img <- (if do_preprocess then
                catch
                  (let strong :=
                     1800 * 1800 <? img_width W pil_img * img_height W pil_img in
                   preprocess_pil_image pil_img strong)
                  (fun _ => ret (ConvertRGB pil_img))
              else ret (ConvertRGB pil_img)) ;;
      let img :=
        if (max_size <? img_width W img) || (max_size <? img_height W img)
        then Thumbnail img else img in
      emit (EvEngineOcr img) ;;;
      result <- lift (engine_ocr W img) ;;
      ret (assemble result))
     (fun _ => ret []))%pipe.

End WithWorld.
End Ocr.
Import Ocr.

(* ================================================================== *)
(** * pdf_utils.py: direct text and the page orchestrator              *)
(* ================================================================== *)

Module PdfUtils.

(** [round(x, 2)]: to the nearest hundredth, ties to the even one. *)
Definition py_round2 (x : Q) : Q :=
  let y := (x * 100)%Q in
  let f := Qfloor y in
  let r := (y - inject_Z f)%Q in
  let n :=
    if Qltb r (1 # 2) then f
    else if Qltb (1 # 2) r then f + 1
    else if Z.even f then f else f + 1 in
  (inject_Z n / 100)%Q.

(** Key [(round(b[1], 2), round(b[0], 2))]. *)
Definition block_key_le (a b : block) : bool :=
  let ya := py_round2 (blk_y0 a) in
  let yb := py_round2 (blk_y0 b) in
  Qltb ya yb
  || Qeq_bool ya yb && Qleb (py_round2 (blk_x0 a)) (py_round2 (blk_x0 b)).

Definition is_str_block (b : block) : bool :=
  match blk_text b with
  | Some _ => true
  | None => false
  end.

Definition block_line (b : block) : str :=
  match blk_text b with
  | Some t => strip t
  | None => []
  end.

Definition nonempty {A} (l : list A) : bool :=
  match l with
  | [] => false
  | _ :: _ => true
  end.

(** [(page.get_text("text") or "").strip()] *)
Definition plain_stripped (p : page) : result str :=
  (t <- get_text_plain p ;; Ok (strip t))%res.

Definition _direct_text_from_page (p : page) : str :=
  let attempt :=
    (blocks <- get_text_blocks p ;;
     let blocks := filter is_str_block blocks in
     let blocks := sort_by block_key_le blocks in
     let lines := filter nonempty (map block_line blocks) in
     let text := join [NL] lines in
     if nonempty (strip text) then Ok text else plain_stripped p)%res in
  match attempt with
  | Ok text => text
  | Raise _ =>
      match plain_stripped p with
      | Ok text => text
      | Raise _ => []
      end
  end.

(** [f"=== СТРАНИЦА {i+1} ===\n"] *)
Definition marker (i : nat) : str :=
  lit "=== СТРАНИЦА " ++ str_of_nat (i + 1) ++ lit " ===" ++ [NL].

(** [seq[:n]] *)
Definition slice_to {A} (l : list A) (n : Z) : list A :=
  if 0 <=? n then firstn (Z.to_nat n) l
  else firstn (Z.to_nat (len l + n)) l.

Section WithWorld.

Variable isalpha : char -> bool.
Variable W : world.

(** The test of lines 89 to 91: the direct text is kept. *)
Definition accepts_direct (direct_text : str) : result bool :=
  if nonempty direct_text && (25 <=? len (strip direct_text)) then
    (corrupted <- _looks_corrupted_text isalpha direct_text ;;
     Ok (negb corrupted))%res
  else Ok false.

(** [page.get_pixmap(...)] up to the PIL image, at [use_dpi]. *)
Definition rasterize (i : nat) (p : page) (use_dpi : Z) : M image :=
  (emit (EvPixmap i use_dpi) ;;;
   if get_pixmap_ok p use_dpi then ret (PagePixmap i use_dpi)
   else raise RuntimeError)%pipe.

(** Lines 105 to 122: the OCR of a rasterised page. *)
Definition ocr_page (pil_img : image) (strong_mode : bool) : M str :=
  (if strong_mode then
     catch
       (pil_strong <- preprocess_pil_image W pil_img true ;;
        run_ocr W pil_strong false)
       (fun _ => run_ocr W pil_img true)
   else
     page_text <- run_ocr W pil_img true ;;
     if nonempty (strip page_text) then ret page_text
     else
       catch
         (pil_strong <- preprocess_pil_image W pil_img true ;;
          run_ocr W pil_strong false)
         (fun _ => ret page_text))%pipe.

(** Lines 98 to 130: the OCR fallback of page [i]. *)
Definition ocr_fallback (i : nat) (p : page) (dpi : Z) (strong_mode : bool)
  : M str :=
  (let use_dpi := Z.max 300 dpi in
   pil_img <- rasterize i p use_dpi ;;
   page_text <- ocr_page pil_img strong_mode ;;
   if nonempty (strip page_text) then ret (marker i ++ page_text)
   else ret (marker i))%pipe.

(** The body of the [try] of the page loop, lines 84 to 130: the entry
    appended to [all_text] for page [i]. *)
Definition page_entry (i : nat) (doc_i : result page) (dpi : Z)
           (force_ocr strong_mode : bool) : M str :=
  (p <- lift doc_i ;;
   if force_ocr then ocr_fallback i p dpi strong_mode
   else
     let direct_text := _direct_text_from_page p in
     accepted <- lift (accepts_direct direct_text) ;;
     if accepted then ret (marker i ++ strip direct_text)
     else ocr_fallback i p dpi strong_mode)%pipe.

(** One iteration of the page loop, with its [except]. *)
Definition page_iteration (i : nat) (doc_i : result page) (dpi : Z)
           (force_ocr strong_mode : bool) : M str :=
  catch (page_entry i doc_i dpi force_ocr strong_mode)
        (fun _ => ret (marker i)).

Fixpoint pages_loop (i : nat) (pages : list (result page)) (dpi : Z)
         (force_ocr strong_mode : bool) (all_text : list str) : M (list str) :=
  match pages with
  | [] => ret all_text
  | doc_i :: pages' =>
      (entry <- page_iteration i doc_i dpi force_ocr strong_mode ;;
       pages_loop (S i) pages' dpi force_ocr strong_mode (all_text ++ [entry]))%pipe
  end.

(** [pdf_to_images]: the images of the first pages. *)
Fixpoint fitz_images (i : nat) (pages : list (result page)) (dpi : Z)
  : M (list image) :=
  match pages with
  | [] => ret []
  | doc_i :: pages' =>
      (p <- lift doc_i ;;
       img <- rasterize i p dpi ;;
       imgs <- fitz_images (S i) pages' dpi ;;
       ret (img :: imgs))%pipe
  end.

Definition pdf_to_images (f : pdf) (dpi max_pages : Z) : M (list image) :=
  (let last_page := Z.min max_pages 20 in
   emit (EvPdf2Image dpi last_page) ;;;
   match convert_from_bytes f dpi last_page with
   | Ok n =>
       ret (slice_to (map (fun i => Pdf2Image i dpi) (seq 0 n)) max_pages)
   | Raise _ =>
       catch
         (doc <- lift (fitz_open f) ;;
          fitz_images 0 (firstn (Z.to_nat (Z.min (len doc) max_pages)) doc) dpi)
         (fun _ => raise RuntimeError)
   end)%pipe.

Fixpoint ocr_only_loop (i : nat) (images : list image) (all_text : list str)
  : M (list str) :=
  match images with
  | [] => ret all_text
  | img :: images' =>
      (entry <- catch
                  (page_text <- run_ocr W img true ;;
                   if nonempty (strip page_text)
                   then ret [marker i ++ page_text] else ret [])
                  (fun _ => ret []) ;;
       ocr_only_loop (S i) images' (all_text ++ entry))%pipe
  end.

Definition _extract_all_pages_text_via_ocr_only (f : pdf) (dpi max_pages : Z)
  : M str :=
  (images <- pdf_to_images f (Z.max 300 dpi) max_pages ;;
   match images with
   | [] => raise ValueError
   | _ :: _ =>
       all_text <- ocr_only_loop 0 images [] ;;
       ret (join [NL; NL] all_text)
   end)%pipe.

Definition extract_all_pages_text (f : pdf) (dpi max_pages : Z)
           (force_ocr strong_mode : bool) : M str :=
  match fitz_open f with
  | Raise _ => _extract_all_pages_text_via_ocr_only f dpi max_pages
  | Ok doc =>
      (let total_pages := Z.min (len doc) max_pages in
       all_text <- pages_loop 0 (firstn (Z.to_nat total_pages) doc)
                              dpi force_ocr strong_mode [] ;;
       ret (join [NL; NL] all_text))%pipe
  end.

End WithWorld.
End PdfUtils.
Import PdfUtils.

(* ================================================================== *)
(** * The reconstructor, as the specification words it                 *)
(* ================================================================== *)

Module ReconstructSpec.

(** The horizontal gap between a detection and its left neighbour. *)
Definition gap (prev b : Box.t) : Z := Box.left b - Box.right prev.

(** "70% of the median detection height". *)
Definition word_threshold (median_h : Q) : Q := ((70 # 100) * median_h)%Q.

(** The text of a line whose detections are ordered by left edge: each
    detection follows its left neighbour directly, or after one space
    where [breaks] tells that a new word starts. *)
Fixpoint spec_line_from (breaks : Box.t -> Box.t -> bool) (prev : Box.t)
         (rest : list Box.t) : str :=
  match rest with
  | [] => []
  | b :: rest' =>
      (if breaks prev b then [SP] else [])
        ++ Box.text b ++ spec_line_from breaks b rest'
  end.

Definition spec_line (breaks : Box.t -> Box.t -> bool) (ordered : list Box.t)
  : str :=
  match ordered with
  | [] => []
  | b0 :: rest => Box.text b0 ++ spec_line_from breaks b0 rest
  end.

(** The corners of a detection, in whole pixels. *)
Definition abscissas (d : detection) : list Z :=
  map (fun p => py_int (fst p)) (det_box d).

Definition ordinates (d : detection) : list Z :=
  map (fun p => py_int (snd p)) (det_box d).

Definition least (l : list Z) (m : Z) : Prop :=
  In m l /\ forall x, In x l -> m <= x.

Definition greatest (l : list Z) (m : Z) : Prop :=
  In m l /\ forall x, In x l -> x <= m.

(** [b] is the box of detection [d]: its text, its horizontal extent, its
    vertical centre (the midpoint of its vertical extent) and its height
    (the vertical extent, at least 1). *)
Definition describes (d : detection) (b : Box.t) : Prop :=
  exists top bottom,
    least (ordinates d) top /\ greatest (ordinates d) bottom
    /\ least (abscissas d) (Box.left b)
    /\ greatest (abscissas d) (Box.right b)
    /\ Box.text b = det_text d
    /\ (Box.mid_y b == inject_Z (top + bottom) / 2)%Q
    /\ Box.height b = Z.max 1 (bottom - top).

(** [m] is the median of [data]: the middle element of the sorted data,
    or the mean of the two middle ones. *)
Definition median_of (data : list Z) (m : Q) : Prop :=
  exists sorted,
    Permutation data sorted /\ Sorted Z.le sorted /\ sorted <> []
    /\ let n := length sorted in
       (m == if Nat.even n
             then inject_Z (nth (n / 2 - 1) sorted 0%Z
                            + nth (n / 2) sorted 0%Z) / 2
             else inject_Z (nth (n / 2) sorted 0%Z))%Q.

(** "max(8, median detection height x 0.6)". *)
Definition tolerance (median_h : Q) : Q := Qmax 8 (median_h * (6 # 10)).

(** The average of the vertical centres of a group. *)
Definition sum_y (g : list Box.t) : Q :=
  fold_right Qplus 0%Q (map Box.mid_y g).

Definition mean_y (g : list Box.t) : Q :=
  (sum_y g / inject_Z (Z.of_nat (length g)))%Q.

(** The vertical distance of a detection from a level. *)
Definition distance (b : Box.t) (y : Q) : Q := Qabs (Box.mid_y b - y).

(** Every detection of the group, the first apart, is nearer than
    [bound] to the average of those before it. *)
Definition joined_within (bound : Q) (g : list Box.t) : Prop :=
  forall pre b post,
    g = pre ++ b :: post -> pre <> [] -> (distance b (mean_y pre) < bound)%Q.

(** The first detection of [g'] is farther than [bound] from the average
    of [g]. *)
Definition parted_beyond (bound : Q) (g g' : list Box.t) : Prop :=
  match g' with
  | b :: _ => (bound < distance b (mean_y g))%Q
  | [] => False
  end.

(** A group is made of detections of one row only. *)
Definition single_row (in_row : Box.t -> bool) (g : list Box.t) : Prop :=
  forall x y, In x g -> In y g -> in_row x = in_row y.

(** Ordered by vertical centre. *)
Definition above_or_level (a b : Box.t) : Prop :=
  (Box.mid_y a <= Box.mid_y b)%Q.

(** The domain of the statements on grouping: at most 4096 detections,
    of ordinates below 2 ** 20 in magnitude. *)
Definition within_bounds (items : list detection) : Prop :=
  (length items <= 4096)%nat
  /\ forall d y, In d items -> In y (ordinates d) -> Z.abs y < 2 ^ 20.

End ReconstructSpec.
Import ReconstructSpec.

(* ================================================================== *)
(** * The grouping loop, with its groups                               *)
(* ================================================================== *)

Module Sweep.

(** The loop of [_group_boxes_to_lines] once more, keeping the groups it
    closes where the code keeps their text. *)
Fixpoint sweep (tol : Q) (current : list Box.t) (cur_y : Q)
         (rest : list Box.t) : list (list Box.t) :=
  match rest with
  | [] => [current]
  | b :: rest' =>
      if same_line tol cur_y b then
        let current' := current ++ [b] in
        sweep tol current' (update_avg cur_y current' b) rest'
      else current :: sweep tol [b] (Box.mid_y b) rest'
  end.

(** A box in the domain of the statements on grouping: its centre is a
    multiple of one half, below 2 ** 20 in magnitude. *)
Definition centred (b : Box.t) : Prop :=
  exists Y, (Box.mid_y b == inject_Z Y / 2)%Q /\ Z.abs Y < 2 ^ 21.

(** What the loop maintains: [cur_y] lies between the centres of two
    members of the current group, and within a millionth of a pixel per
    member of their average. *)
Definition near_average (current : list Box.t) (cur_y : Q) : Prop :=
  current <> []
  /\ (exists a, In a current /\ (Box.mid_y a <= cur_y)%Q)
  /\ (exists z, In z current /\ (cur_y <= Box.mid_y z)%Q)
  /\ (Qabs (cur_y - mean_y current)
      <= inject_Z (Z.of_nat (length current)) * (1 # 1048576))%Q.

End Sweep.
Import Sweep.

(* ================================================================== *)
(** * The orchestrator, as the specification words it                  *)
(* ================================================================== *)

Module PipelineSpec.

(** Every rasterisation an event stands for was made at resolution [d]. *)
Definition at_dpi (d : Z) (e : event) : Prop :=
  match e with
  | EvPixmap _ dpi => dpi = d
  | EvPdf2Image dpi _ => dpi = d
  | EvPreprocess img _ => raster_dpi img = d
  | EvEngineOcr img => raster_dpi img = d
  | EvLoadModel _ => True
  end.

(** A computation only adds events that satisfy [P] to the log, and a
    value it returns satisfies [Q]. *)
Definition emits (P : event -> Prop) {A} (Q : A -> Prop) (m : M A) : Prop :=
  forall st,
    (exists new, log (snd (m st)) = log st ++ new /\ Forall P new) /\
    (forall a, fst (m st) = Ok a -> Q a).

Definition anything {A} (a : A) : Prop := True.

Definition from_dpi (d : Z) (img : image) : Prop := raster_dpi img = d.

(** The first preprocessing call of a log, with its [strong] flag. *)
Fixpoint first_preprocess (l : list event) : option (image * bool) :=
  match l with
  | [] => None
  | EvPreprocess img strong :: _ => Some (img, strong)
  | _ :: l' => first_preprocess l'
  end.

(** The engine cannot be constructed, now or later. *)
Definition engine_down (W : world) (st : state) : Prop :=
  ocr_model_loaded st = false /\ forall n, engine_init W n = false.

(** The engine is, or can be, constructed at the next request. *)
Definition engine_up (W : world) (st : state) : Prop :=
  ocr_model_loaded st = true \/ engine_init W (load_attempts st) = true.

(** The state after one more event. *)
Definition logged (e : event) (st : state) : state :=
  State (ocr_model_loaded st) (load_attempts st) (log st ++ [e]).

(** Number of characters that are not whitespace. *)
Definition non_whitespace (s : str) : Z :=
  count (fun c => negb (isspace c)) s.

(** The sections of the pages from index [i] on: a page whose processing
    raises contributes its marker alone, and the pages after it are
    processed from the state it left. *)
Fixpoint page_sections (isalpha : char -> bool) (W : world) (i : nat)
         (pages : list (result page)) (dpi : Z) (force_ocr strong_mode : bool)
         (st : state) : list str * state :=
  match pages with
  | [] => ([], st)
  | doc_i :: pages' =>
      let '(r, st1) := page_entry isalpha W i doc_i dpi force_ocr strong_mode st in
      let section := match r with
                     | Ok entry => entry
                     | Raise _ => marker i
                     end in
      let '(rest, st2) :=
        page_sections isalpha W (S i) pages' dpi force_ocr strong_mode st1 in
      (section :: rest, st2)
  end.

End PipelineSpec.
Import PipelineSpec.

(* ================================================================== *)
(** * Concrete inputs                                                  *)
(* ================================================================== *)

(** Basic letters: a table that is exact on ASCII and on the Cyrillic
    and Turkish letters the heuristic names. *)
Definition basic_isalpha (c : char) : bool :=
  ((65 <=? c) && (c <=? 90) || (97 <=? c) && (c <=? 122)
   || (1040 <=? c) && (c <=? 1103) || (c =? 1025) || (c =? 1105)
   || (c =? 304) || (c =? 305))%N.

(** An axis-parallel bounding polygon. *)
Definition quad (l t r b : Z) : list (Q * Q) :=
  [(inject_Z l, inject_Z t); (inject_Z r, inject_Z t);
   (inject_Z r, inject_Z b); (inject_Z l, inject_Z b)].

(** Two rows of text, as the engine may report them, out of order. *)
Definition demo_items : list detection :=
  [ Detection (quad 90 10 140 30) (lit "world") (9 # 10);
    Detection (quad 10 60 50 80) (lit "next") (8 # 10);
    Detection (quad 42 11 60 31) (lit "lo") (9 # 10);
    Detection (quad 10 10 40 30) (lit "Hel") (9 # 10) ].

Definition demo_boxes : list Box.t :=
  [ Box.Make (lit "world") 90 140 (int_truediv 40 2) 20;
    Box.Make (lit "next") 10 50 (int_truediv 140 2) 20;
    Box.Make (lit "lo") 42 60 (int_truediv 42 2) 20;
    Box.Make (lit "Hel") 10 40 (int_truediv 40 2) 20 ].

Definition demo_in_first_row (b : Box.t) : bool := Qle_bool (Box.mid_y b) 40.

(** Two detections 63 pixels apart. *)
Definition apart_63 : list Box.t :=
  [ Box.Make (lit "a") 0 10 (int_truediv 40 2) 90;
    Box.Make (lit "b") 73 90 (int_truediv 40 2) 90 ].

(** A scanned page: nothing to extract directly, rasterisation works. *)
Definition scan_page : page := Page (Ok []) (Ok []) (fun _ => true).

(** A born-digital page whose only block holds [text]. *)
Definition text_page (text : str) : page :=
  Page (Ok [Block 72 72 500 90 (Some text)]) (Ok text) (fun _ => true).

Definition one_page_pdf (p : page) : pdf :=
  Pdf (Ok [Ok p]) (fun _ _ => Ok 1%nat).

(** A world of A4 pages at 300 dpi in which preprocessing works; the
    engine's construction and answers are given. *)
Definition a4_world (init : nat -> bool) (answer : image -> result ocr_response)
  : world :=
  World (fun _ => 2480) (fun _ => 3508) (fun _ _ => true) init answer.

(** One legacy detection of confidence 0.1. *)
Definition low_confidence_response : ocr_response :=
  RespLegacyNested [Detection (quad 10 10 60 30) (lit "junk") (1 # 10)].

(** Thirteen letters separated by spaces: 25 characters. *)
Definition spaced_text : str := lit "a b c d e f g h i j k l m".

(** A document of three pages: clean text, a page the reader cannot
    load, a scan. *)
Definition clean_text : str := lit "Contract No. 123, dated 2024-01-01".

Definition three_page_pdf : pdf :=
  Pdf (Ok [Ok (text_page clean_text); Raise RuntimeError; Ok scan_page])
      (fun _ _ => Ok 3%nat).

Definition reading_world : world :=
  a4_world (fun _ => true)
           (fun _ => Ok (RespStructured [lit "scanned"] [9 # 10])).

Definition engine_less_world : world :=
  a4_world (fun _ => false) (fun _ => Ok RespNone).


(* ================================================================== *)
(** * Properties of the corruption heuristic                           *)
(* ================================================================== *)

Lemma Qltb_lt (x y : Q) : Qltb x y = true <-> (x < y)%Q.
Proof.
  unfold Qltb. rewrite negb_true_iff. split; intro H.
  - apply Qnot_le_lt. intro Hle. apply Qle_bool_iff in Hle. congruence.
  - destruct (Qle_bool y x) eqn:E; [|reflexivity].
    apply Qle_bool_iff in E. exfalso. exact (Qlt_not_le _ _ H E).
Qed.

Lemma Qleb_le (x y : Q) : Qleb x y = true <-> (x <= y)%Q.
Proof. unfold Qleb. apply Qle_bool_iff. Qed.

Lemma Qltb_false (x y : Q) : Qltb x y = false <-> (y <= x)%Q.
Proof.
  unfold Qltb. rewrite negb_false_iff. apply Qle_bool_iff.
Qed.

Lemma Qleb_false (x y : Q) : Qleb x y = false <-> (y < x)%Q.
Proof.
  split; intro H.
  - apply Qnot_le_lt. intro Hle. apply Qleb_le in Hle. congruence.
  - destruct (Qleb x y) eqn:E; [|reflexivity].
    apply Qleb_le in E. exfalso. exact (Qlt_not_le _ _ H E).
Qed.

Lemma truediv_nonzero (a b : Z) :
  b <> 0 -> truediv a b = Ok (inject_Z a / inject_Z b)%Q.
Proof.
  intro Hb. unfold truediv. destruct (Z.eqb_spec b 0); [contradiction|reflexivity].
Qed.

Lemma len_nonneg {A} (l : list A) : 0 <= len l.
Proof. unfold len. lia. Qed.

Lemma len_zero_nil {A} (l : list A) : len l = 0 -> l = [].
Proof. unfold len. destruct l; simpl; [reflexivity|lia]. Qed.

Lemma filter_nil_iff_no_witness {A} (p : A -> bool) (l : list A) :
  filter p l <> [] <-> Exists (fun c => p c = true) l.
Proof.
  induction l as [|c l IH]; simpl.
  - split; [congruence | intro H; inversion H].
  - destruct (p c) eqn:E.
    + split; [intros _; now constructor | discriminate].
    + rewrite IH. split; intro H.
      * now apply Exists_cons_tl.
      * inversion H; subst; [congruence | assumption].
Qed.

Section HeuristicFacts.

Variable isalpha : char -> bool.

(** The heuristic never raises: each division it performs has a divisor
    that was tested to be non-zero. *)
Lemma looks_corrupted_total (text : str) :
  exists b, _looks_corrupted_text isalpha text = Ok b.
Proof.
  unfold _looks_corrupted_text. destruct text as [|c text]; [now exists true|].
  set (s := remove_newlines (c :: text)).
  destruct (Z.ltb_spec (len s) 20) as [Hlt|Hge]; [now exists true|].
  rewrite (truediv_nonzero (distinct s) (len s)) by lia.
  rewrite (truediv_nonzero (count is_cyrillic s) (len s)) by lia.
  cbn [rbind].
  destruct (filter isalpha s) as [|l ls] eqn:El; cbn [rbind].
  - repeat match goal with |- context [if ?b then _ else _] => destruct b end;
      eauto.
  - rewrite truediv_nonzero by (unfold len; simpl; lia). cbn [rbind].
    repeat match goal with |- context [if ?b then _ else _] => destruct b end;
      eauto.
Qed.

(** The answer of the heuristic on a text of at least 20 characters
    (newlines apart), test by test. *)
Lemma looks_corrupted_value (text : str) :
  let s := remove_newlines text in
  let letters := filter isalpha s in
  20 <= len s ->
  _looks_corrupted_text isalpha text
  = Ok (negb (len letters =? 0)
        && Qleb (1 # 2) (inject_Z (count is_broken_glyph letters)
                         / inject_Z (len letters))
        || Qltb (inject_Z (distinct s) / inject_Z (len s)) (20 # 100)
           && (0 <? len letters)
        || has_keyword text
           && Qltb (inject_Z (count is_cyrillic s) / inject_Z (len s)) (2 # 100)).
Proof.
  cbv zeta. intro Hge. unfold _looks_corrupted_text.
  destruct text as [|c text]; [unfold len in Hge; simpl in Hge; lia|].
  set (s := remove_newlines (c :: text)) in *.
  destruct (Z.ltb_spec (len s) 20) as [Hlt|_]; [lia|].
  rewrite (truediv_nonzero (distinct s) (len s)) by lia.
  rewrite (truediv_nonzero (count is_cyrillic s) (len s)) by lia.
  cbn [rbind].
  destruct (filter isalpha s) as [|l ls] eqn:El; cbn [rbind].
  - change (len (@nil char) =? 0) with true. cbn [negb andb orb].
    change (Qleb (1 # 2) 0) with false. cbv iota.
    change (0 <? len (@nil char)) with false. rewrite andb_false_r.
    cbn [orb]. now destruct (_ && _).
  - rewrite truediv_nonzero by (unfold len; simpl; lia). cbn [rbind].
    assert (E0 : (len (l :: ls) =? 0) = false)
      by (apply Z.eqb_neq; unfold len; simpl; lia).
    rewrite E0. cbn [negb andb].
    destruct (Qleb _ _); [reflexivity|]. cbn [orb].
    destruct (_ && (0 <? _)); [reflexivity|]. cbn [orb].
    now destruct (_ && _).
Qed.

End HeuristicFacts.

(** ** The tests of the code and the conditions of the specification *)

Lemma remove_newlines_spec (text : str) :
  forall s, without_newlines text s <-> s = remove_newlines text.
Proof.
  induction text as [|c text IH]; intro s.
  - split; [intro H; now inversion H | intros ->; constructor].
  - unfold remove_newlines. cbn [filter]. fold (remove_newlines text).
    destruct (N.eqb_spec c NL) as [->|Hc]; cbn [negb].
    + split.
      * intro H. inversion H; subst; [now apply IH | now contradiction H2].
      * intros ->. constructor. now apply IH.
    + split.
      * intro H. inversion H; subst; [now contradiction Hc|].
        f_equal. now apply IH.
      * intros ->. constructor; [exact Hc | now apply IH].
Qed.

Lemma count_how_many (p : char -> bool) (s : str) :
  count p s = Z.of_nat (how_many p s).
Proof.
  unfold count, len. f_equal.
  induction s as [|c s IH]; [reflexivity|]. cbn [filter how_many].
  destruct (p c); cbn [length]; lia.
Qed.

Lemma len_filter_how_many (p : char -> bool) (s : str) :
  len (filter p s) = Z.of_nat (how_many p s).
Proof. apply count_how_many. Qed.

Lemma how_many_filter (p q : char -> bool) (s : str) :
  how_many q (filter p s) = how_many (fun c => p c && q c) s.
Proof.
  induction s as [|c s IH]; [reflexivity|]. cbn [filter how_many].
  destruct (p c); cbn [how_many andb]; now rewrite IH.
Qed.

Lemma how_many_ext (p q : char -> bool) (s : str) :
  (forall c, p c = q c) -> how_many p s = how_many q s.
Proof.
  intro H. induction s as [|c s IH]; [reflexivity|]. cbn [how_many].
  now rewrite H, IH.
Qed.

Lemma how_many_pos (p : char -> bool) (s : str) :
  (0 < how_many p s)%nat <-> exists c, In c s /\ p c = true.
Proof.
  induction s as [|c s IH]; cbn [how_many].
  - split; [lia | intros (c & [] & _)].
  - destruct (p c) eqn:E.
    + split; [intros _; exists c; split; [now left | exact E] | lia].
    + rewrite Nat.add_0_l, IH. split.
      * intros (x & Hx & Px). exists x. split; [now right | exact Px].
      * intros (x & [<-|Hx] & Px); [congruence | now exists x].
Qed.

Lemma is_broken_glyph_spec (c : char) : is_broken_glyph c = broken_glyph c.
Proof.
  unfold is_broken_glyph, broken_glyph.
  change broken_glyphs with [73; 108; 124; 305; 304]%N.
  cbn [existsb]. now rewrite orb_false_r, !orb_assoc.
Qed.

Lemma is_cyrillic_spec (c : char) : is_cyrillic c = cyrillic c.
Proof.
  unfold is_cyrillic, cyrillic.
  change (lit "Ёё") with [1025; 1105]%N.
  cbn [contains startswith]. rewrite (N.eqb_sym c 1025), (N.eqb_sym c 1105).
  destruct ((1040 <=? c) && (c <=? 1103))%N, (1025 =? c)%N, (1105 =? c)%N;
    reflexivity.
Qed.

Lemma distinct_spec (s u : str) :
  NoDup u -> (forall c, In c u <-> In c s) -> distinct s = Z.of_nat (length u).
Proof.
  intros Hu Hs. unfold distinct, len. f_equal.
  apply Permutation_length, NoDup_Permutation.
  - apply NoDup_nodup.
  - exact Hu.
  - intro c. rewrite nodup_In. symmetry. apply Hs.
Qed.

Lemma startswith_iff (s p : str) :
  startswith s p = true <-> exists post, s = p ++ post.
Proof.
  revert s. induction p as [|a p IH]; intro s.
  - split; [intros _; now exists s | intros _; now destruct s].
  - destruct s as [|b s]; cbn [startswith].
    + split; [discriminate | intros (post & H); discriminate H].
    + rewrite andb_true_iff, N.eqb_eq, IH. split.
      * intros (-> & post & ->). now exists post.
      * intros (post & H). injection H as -> ->. split; [reflexivity | now exists post].
Qed.

Lemma contains_iff (s sub : str) :
  contains s sub = true <-> exists pre post, s = pre ++ sub ++ post.
Proof.
  induction s as [|c s IH].
  - cbn [contains]. rewrite orb_false_r, startswith_iff. split.
    + intros (post & H). now exists [], post.
    + intros (pre & post & H). symmetry in H.
      apply app_eq_nil in H. destruct H as [-> H]. now exists post.
  - cbn [contains]. rewrite orb_true_iff, startswith_iff, IH. split.
    + intros [(post & H)|(pre & post & H)].
      * now exists [], post.
      * exists (c :: pre), post. now rewrite H.
    + intros (pre & post & H). destruct pre as [|x pre].
      * left. now exists post.
      * right. injection H as _ H. now exists pre, post.
Qed.

Lemma has_keyword_spec (text : str) :
  has_keyword text = true
  <-> exists kw pre post, In kw domain_keywords /\ text = pre ++ kw ++ post.
Proof.
  unfold has_keyword. rewrite existsb_exists.
  change keywords with domain_keywords. split.
  - intros (kw & Hin & H). apply contains_iff in H.
    destruct H as (pre & post & H). now exists kw, pre, post.
  - intros (kw & pre & post & Hin & H). exists kw. split; [exact Hin|].
    apply contains_iff. now exists pre, post.
Qed.

(** C5. On a non-empty text the heuristic answers "corrupted" exactly when
    one of the four conditions holds: fewer than 20 characters once
    newlines are removed; at least half of the letters in the broken-glyph
    set; fewer than 0.20 distinct characters per character with a letter
    present; a domain keyword in the text with fewer than 0.02 Cyrillic
    characters per character.  The proportions are taken over the text
    without its newlines. *)
Theorem C5_looks_corrupted_iff_four_conditions
        (isalpha : char -> bool) (text : str) :
  text <> [] ->
  (_looks_corrupted_text isalpha text = Ok true
   <-> spec_looks_corrupted isalpha text).
Proof.
  intro Hne. unfold spec_looks_corrupted.
  set (s := remove_newlines text).
  assert (Hs : forall s', without_newlines text s' <-> s' = s)
    by apply remove_newlines_spec.
  assert (Hlen : len s = Z.of_nat (length s)) by reflexivity.
  destruct (Z.ltb_spec (len s) 20) as [Hlt|Hge].
  { assert (E : _looks_corrupted_text isalpha text = Ok true).
    { unfold _looks_corrupted_text. destruct text; [congruence|].
      fold s. apply Z.ltb_lt in Hlt. now rewrite Hlt. }
    split; [intros _|intros _; exact E].
    exists s. split; [now apply Hs|]. left. unfold short. lia. }
  rewrite (looks_corrupted_value isalpha text Hge). fold s.
  rewrite len_filter_how_many.
  assert (Ebad : count is_broken_glyph (filter isalpha s)
                 = Z.of_nat (how_many (fun c => isalpha c && broken_glyph c) s)).
  { rewrite count_how_many, how_many_filter. f_equal.
    apply how_many_ext. intro c. now rewrite is_broken_glyph_spec. }
  assert (Ecyr : count is_cyrillic s = Z.of_nat (how_many cyrillic s)).
  { rewrite count_how_many. f_equal. apply how_many_ext, is_cyrillic_spec. }
  rewrite Ebad, Ecyr, Hlen.
  set (n_alpha := how_many isalpha s).
  set (n_bad := how_many (fun c => isalpha c && broken_glyph c) s).
  set (n_cyr := how_many cyrillic s).
  assert (T2 : negb (Z.of_nat n_alpha =? 0)
               && Qleb (1 # 2) (inject_Z (Z.of_nat n_bad)
                                / inject_Z (Z.of_nat n_alpha)) = true
               <-> mostly_broken_glyphs isalpha s).
  { unfold mostly_broken_glyphs, proportion. fold n_alpha n_bad.
    rewrite andb_true_iff, negb_true_iff, Z.eqb_neq, Qleb_le.
    split; intros [H1 H2]; (split; [lia | exact H2]). }
  assert (T3 : Qltb (inject_Z (distinct s) / inject_Z (Z.of_nat (length s)))
                    (20 # 100)
               && (0 <? Z.of_nat n_alpha) = true
               <-> low_diversity isalpha s).
  { unfold low_diversity. rewrite andb_true_iff, Qltb_lt, Z.ltb_lt.
    rewrite <- (how_many_pos isalpha s). fold n_alpha. split.
    - intros [H1 H2]. split; [|lia].
      exists (nodup N.eq_dec s). split; [apply NoDup_nodup|].
      split; [intro c; apply nodup_In | exact H1].
    - intros [(u & Hu & Hin & H1) H2]. split; [|lia].
      rewrite (distinct_spec s u Hu Hin). exact H1. }
  assert (T4 : has_keyword text
               && Qltb (inject_Z (Z.of_nat n_cyr)
                        / inject_Z (Z.of_nat (length s))) (2 # 100) = true
               <-> keyword_without_script text s).
  { unfold keyword_without_script, proportion. fold n_cyr.
    now rewrite andb_true_iff, Qltb_lt, has_keyword_spec. }
  split.
  - intro H. injection H as H. exists s. split; [now apply Hs|].
    apply orb_true_iff in H. destruct H as [H|H].
    + apply orb_true_iff in H. destruct H as [H|H].
      * right; left. now apply T2.
      * right; right; left. now apply T3.
    + right; right; right. now apply T4.
  - intros (s' & Hs' & H). apply Hs in Hs'. subst s'. f_equal.
    destruct H as [H|[H|[H|H]]].
    + unfold short in H. lia.
    + apply T2 in H. now rewrite H.
    + apply T3 in H. rewrite H. now rewrite orb_true_r.
    + apply T4 in H. rewrite H. now rewrite orb_true_r.
Qed.


(* ================================================================== *)
(** * Properties of the reconstructor                                  *)
(* ================================================================== *)

(* ================================================================== *)
(** * Binary64 rounding                                                *)
(* ================================================================== *)

Section Rounding.
Local Open Scope Q_scope.

Lemma pow2_pos (e : Z) : 0 < pow2 e.
Proof. unfold pow2. now apply Qpower_0_lt. Qed.

Lemma pow2_add (a b : Z) : pow2 (a + b) == pow2 a * pow2 b.
Proof. unfold pow2. now apply Qpower_plus. Qed.

Lemma pow2_sub (a b : Z) : pow2 (a - b) == pow2 a / pow2 b.
Proof. unfold pow2. now apply Qpower_minus. Qed.

Lemma pow2_le (a b : Z) : (a <= b)%Z -> pow2 a <= pow2 b.
Proof. intro H. unfold pow2. now apply Qpower_le_compat_l. Qed.

Lemma pow2_lt (a b : Z) : (a < b)%Z -> pow2 a < pow2 b.
Proof. intro H. unfold pow2. now apply Qpower_lt_compat_l. Qed.

Lemma pow2_lt_inv (a b : Z) : pow2 a < pow2 b -> (a < b)%Z.
Proof. intro H. unfold pow2 in H. now apply Qpower_lt_compat_l_inv in H. Qed.

Lemma pow2_Z (n : Z) : (0 <= n)%Z -> pow2 n == inject_Z (2 ^ n).
Proof. intro H. unfold pow2. now rewrite Zpower_Qpower. Qed.

(** ** Rounding to an integer *)

Ltac compare_to_order :=
  repeat match goal with
         | H : (_ ?= _)%Q = Eq |- _ => apply (proj2 (Qeq_alt _ _)) in H
         | H : (_ ?= _)%Q = Lt |- _ => apply (proj2 (Qlt_alt _ _)) in H
         | H : (_ ?= _)%Q = Gt |- _ => apply (proj2 (Qgt_alt _ _)) in H
         end.

Lemma rne_bounds (q : Q) : (Qfloor q <= rne q <= Qfloor q + 1)%Z.
Proof.
  unfold rne. destruct (_ ?= _)%Q; [destruct (Z.even _)| |]; lia.
Qed.

Lemma rne_int (n : Z) : rne (inject_Z n) = n.
Proof.
  unfold rne. rewrite Qfloor_Z.
  assert (E : (inject_Z n - inject_Z n ?= 1 # 2) = Lt).
  { apply (proj1 (Qlt_alt _ _)). lra. }
  now rewrite E.
Qed.

Lemma rne_mono (x y : Q) : x <= y -> (rne x <= rne y)%Z.
Proof.
  intro H. pose proof (Qfloor_resp_le _ _ H) as Hf.
  destruct (Z.eq_dec (Qfloor x) (Qfloor y)) as [E|E].
  - unfold rne. rewrite <- E.
    destruct (x - inject_Z (Qfloor x) ?= 1 # 2) eqn:Ex;
      destruct (y - inject_Z (Qfloor x) ?= 1 # 2) eqn:Ey;
      try (destruct (Z.even (Qfloor x))); try lia; exfalso;
      compare_to_order; lra.
  - pose proof (rne_bounds x). pose proof (rne_bounds y). lia.
Qed.

Lemma rne_le_int (x : Q) (n : Z) : x <= inject_Z n -> (rne x <= n)%Z.
Proof. intro H. rewrite <- (rne_int n). now apply rne_mono. Qed.

Lemma rne_ge_int (x : Q) (n : Z) : inject_Z n <= x -> (n <= rne x)%Z.
Proof. intro H. rewrite <- (rne_int n). now apply rne_mono. Qed.

(** ** The binade of a positive rational *)

Lemma ilog2_spec (q : Q) :
  0 < q -> pow2 (ilog2 q) <= q /\ q < pow2 (ilog2 q + 1).
Proof.
  intro Hq. destruct q as [n d].
  assert (Hn : (0 < n)%Z) by (unfold Qlt in Hq; simpl in Hq; lia).
  unfold ilog2. cbn [Qnum Qden].
  set (ln := Z.log2 n). set (ld := Z.log2 (Z.pos d)).
  assert (Hln : (2 ^ ln <= n < 2 ^ (ln + 1))%Z).
  { unfold ln. replace (ln + 1)%Z with (Z.succ (Z.log2 n)) by (unfold ln; lia).
    apply Z.log2_spec. exact Hn. }
  assert (Hld : (2 ^ ld <= Z.pos d < 2 ^ (ld + 1))%Z).
  { unfold ld. replace (ld + 1)%Z with (Z.succ (Z.log2 (Z.pos d)))
      by (unfold ld; lia).
    apply Z.log2_spec. lia. }
  assert (H0n : (0 <= ln)%Z) by apply Z.log2_nonneg.
  assert (H0d : (0 <= ld)%Z) by apply Z.log2_nonneg.
  assert (Eq : n # d == inject_Z n / inject_Z (Z.pos d)) by apply Qmake_Qdiv.
  assert (Hd : 0 < inject_Z (Z.pos d)) by (change 0 with (inject_Z 0); now rewrite <- Zlt_Qlt).
  assert (Hup : n # d < pow2 (ln - ld + 1)).
  { replace (ln - ld + 1)%Z with ((ln + 1) - ld)%Z by lia.
    rewrite pow2_sub, Eq, (pow2_Z (ln + 1)), (pow2_Z ld) by lia.
    apply Qlt_shift_div_l.
    - change 0 with (inject_Z 0). rewrite <- Zlt_Qlt. lia.
    - unfold Qdiv. rewrite <- Qmult_assoc, (Qmult_comm (/ _)), Qmult_assoc.
      apply Qlt_shift_div_r; [exact Hd|].
      rewrite <- !inject_Z_mult, <- Zlt_Qlt. nia. }
  assert (Hlow : pow2 (ln - ld - 1) < n # d).
  { replace (ln - ld - 1)%Z with (ln - (ld + 1))%Z by lia.
    rewrite pow2_sub, Eq, (pow2_Z ln), (pow2_Z (ld + 1)) by lia.
    apply Qlt_shift_div_r.
    - change 0 with (inject_Z 0). rewrite <- Zlt_Qlt. lia.
    - unfold Qdiv. rewrite <- Qmult_assoc, (Qmult_comm (/ _)), Qmult_assoc.
      apply Qlt_shift_div_l; [exact Hd|].
      rewrite <- !inject_Z_mult, <- Zlt_Qlt. nia. }
  destruct (Qle_bool (pow2 (ln - ld)) (n # d)) eqn:E.
  - apply Qle_bool_iff in E. split; [exact E | exact Hup].
  - split; [now apply Qlt_le_weak|].
    replace (ln - ld - 1 + 1)%Z with (ln - ld)%Z by lia.
    apply Qnot_le_lt. intro H. apply Qle_bool_iff in H. congruence.
Qed.

Lemma ilog2_mono (x y : Q) : 0 < x -> x <= y -> (ilog2 x <= ilog2 y)%Z.
Proof.
  intros Hx Hxy.
  destruct (ilog2_spec x Hx) as [H1 _].
  destruct (ilog2_spec y) as [_ H2]; [lra|].
  assert (H : pow2 (ilog2 x) < pow2 (ilog2 y + 1)) by lra.
  apply pow2_lt_inv in H. lia.
Qed.

Lemma ilog2_unique (q : Q) (e : Z) :
  pow2 e <= q -> q < pow2 (e + 1) -> ilog2 q = e.
Proof.
  intros H1 H2. assert (Hq : 0 < q) by (pose proof (pow2_pos e); lra).
  destruct (ilog2_spec q Hq) as [H3 H4].
  assert (Ha : pow2 e < pow2 (ilog2 q + 1)) by lra.
  assert (Hb : pow2 (ilog2 q) < pow2 (e + 1)) by lra.
  apply pow2_lt_inv in Ha, Hb. lia.
Qed.


(** ** Rounding a positive rational *)

Lemma ulp_exp_mono (x y : Q) : 0 < x -> x <= y -> (ulp_exp x <= ulp_exp y)%Z.
Proof.
  intros Hx Hxy. unfold ulp_exp. pose proof (ilog2_mono x y Hx Hxy). lia.
Qed.

Lemma round_pos_nonneg (q : Q) : 0 < q -> 0 <= round_pos q.
Proof.
  intro Hq. unfold round_pos. pose proof (pow2_pos (ulp_exp q)) as Hp.
  apply Qmult_le_0_compat; [|lra].
  change 0 with (inject_Z 0). rewrite <- Zle_Qle. apply rne_ge_int.
  change (inject_Z 0) with 0. apply Qle_shift_div_l; [exact Hp | lra].
Qed.

(** A positive rational rounds to at most the next power of two. *)
Lemma round_pos_upper (x : Q) (e : Z) :
  0 < x -> (ilog2 x < e)%Z -> (ulp_exp x <= e)%Z -> round_pos x <= pow2 e.
Proof.
  intros Hx He Hu. unfold round_pos.
  set (u := ulp_exp x) in *.
  pose proof (pow2_pos u) as Hp.
  destruct (ilog2_spec x Hx) as [_ Hlt].
  assert (Hxe : x <= pow2 e).
  { apply Qlt_le_weak. eapply Qlt_le_trans; [exact Hlt|]. apply pow2_le. lia. }
  assert (Hr : (rne (x / pow2 u) <= 2 ^ (e - u))%Z).
  { apply rne_le_int. rewrite <- pow2_Z by lia. rewrite pow2_sub.
    apply Qmult_le_compat_r; [exact Hxe|].
    apply Qlt_le_weak, Qinv_lt_0_compat, Hp. }
  rewrite Zle_Qle in Hr. rewrite <- pow2_Z in Hr by lia.
  rewrite pow2_sub in Hr.
  apply (Qmult_le_compat_r _ _ (pow2 u)) in Hr; [|lra].
  eapply Qle_trans; [exact Hr|].
  assert (E : pow2 e / pow2 u * pow2 u == pow2 e) by (field; lra).
  rewrite E. apply Qle_refl.
Qed.

(** A positive normal rational rounds to at least the power of two below
    it. *)
Lemma round_pos_lower (y : Q) :
  0 < y -> (emin <= ilog2 y - 52)%Z -> pow2 (ilog2 y) <= round_pos y.
Proof.
  intros Hy Hn. unfold round_pos, ulp_exp.
  replace (Z.max (ilog2 y - 52) emin) with (ilog2 y - 52)%Z by lia.
  set (e := ilog2 y). set (u := (e - 52)%Z).
  pose proof (pow2_pos u) as Hp.
  destruct (ilog2_spec y Hy) as [Hle _]. fold e in Hle.
  assert (Hr : (2 ^ 52 <= rne (y / pow2 u))%Z).
  { apply rne_ge_int. rewrite <- pow2_Z by lia.
    replace 52%Z with (e - u)%Z by (unfold u; lia). rewrite pow2_sub.
    apply Qmult_le_compat_r; [exact Hle|].
    apply Qlt_le_weak, Qinv_lt_0_compat, Hp. }
  rewrite Zle_Qle in Hr. rewrite <- pow2_Z in Hr by lia.
  apply (Qmult_le_compat_r _ _ (pow2 u)) in Hr; [|lra].
  eapply Qle_trans; [|exact Hr].
  rewrite <- pow2_add. apply pow2_le. unfold u. lia.
Qed.

Lemma round_pos_mono (x y : Q) :
  0 < x -> x <= y -> round_pos x <= round_pos y.
Proof.
  intros Hx Hxy. assert (Hy : 0 < y) by lra.
  pose proof (ilog2_mono x y Hx Hxy) as He.
  pose proof (ulp_exp_mono x y Hx Hxy) as Hu.
  destruct (Z.eq_dec (ulp_exp x) (ulp_exp y)) as [E|E].
  - unfold round_pos. rewrite E. pose proof (pow2_pos (ulp_exp y)) as Hp.
    apply Qmult_le_compat_r; [|lra].
    rewrite <- Zle_Qle. apply rne_mono.
    apply Qmult_le_compat_r; [exact Hxy|].
    apply Qlt_le_weak, Qinv_lt_0_compat, Hp.
  - assert (Hn : (emin <= ilog2 y - 52)%Z) by (unfold ulp_exp in *; lia).
    apply Qle_trans with (pow2 (ilog2 y)).
    + apply round_pos_upper; [exact Hx | unfold ulp_exp in *; lia
                              | unfold ulp_exp in *; lia].
    + now apply round_pos_lower.
Qed.

(** A number with at most 53 significant bits and an exponent in range
    is its own rounding. *)
Lemma round_pos_exact (z k : Z) :
  (0 < z < 2 ^ 53)%Z -> (emin <= k)%Z ->
  round_pos (inject_Z z * pow2 k) == inject_Z z * pow2 k.
Proof.
  intros Hz Hk. set (q := inject_Z z * pow2 k).
  pose proof (pow2_pos k) as Hpk.
  assert (Hz0 : 0 < inject_Z z)
    by (change 0 with (inject_Z 0); rewrite <- Zlt_Qlt; lia).
  assert (Hq : 0 < q) by (unfold q; apply Qmult_lt_0_compat; assumption).
  destruct (ilog2_spec q Hq) as [Hle _].
  assert (He : (ilog2 q < k + 53)%Z).
  { apply pow2_lt_inv. eapply Qle_lt_trans; [exact Hle|].
    unfold q. rewrite Z.add_comm, pow2_add, (pow2_Z 53) by lia.
    apply Qmult_lt_compat_r; [exact Hpk|]. rewrite <- Zlt_Qlt. lia. }
  unfold round_pos. set (u := ulp_exp q).
  assert (Hu : (u <= k)%Z) by (unfold u, ulp_exp; lia).
  pose proof (pow2_pos u) as Hpu.
  assert (E : q / pow2 u == inject_Z (z * 2 ^ (k - u))).
  { rewrite inject_Z_mult, <- pow2_Z by lia. rewrite pow2_sub.
    unfold q. field. lra. }
  assert (Er : rne (q / pow2 u) = (z * 2 ^ (k - u))%Z).
  { apply Z.le_antisymm.
    - apply rne_le_int. rewrite E. apply Qle_refl.
    - apply rne_ge_int. rewrite E. apply Qle_refl. }
  rewrite Er, inject_Z_mult, <- pow2_Z by lia. rewrite pow2_sub.
  unfold q. field. lra.
Qed.

(** ** Rounding *)

Lemma round64_pos (q : Q) : 0 < q -> round64 q = round_pos q.
Proof.
  intro H. unfold round64. destruct q as [[|p|p] d]; try reflexivity;
    unfold Qlt in H; simpl in H; lia.
Qed.

Lemma round64_neg (q : Q) : q < 0 -> round64 q = - round_pos (- q).
Proof.
  intro H. unfold round64. destruct q as [[|p|p] d]; try reflexivity;
    unfold Qlt in H; simpl in H; lia.
Qed.

Lemma round64_zero (q : Q) : q == 0 -> round64 q = 0.
Proof.
  intro H. unfold round64. destruct q as [[|p|p] d]; try reflexivity;
    unfold Qeq in H; simpl in H; lia.
Qed.

Lemma round64_mono (x y : Q) : x <= y -> round64 x <= round64 y.
Proof.
  intro H.
  destruct (Qlt_le_dec 0 x) as [Hx|Hx].
  - rewrite (round64_pos x Hx), (round64_pos y) by lra.
    now apply round_pos_mono.
  - destruct (Qlt_le_dec 0 y) as [Hy|Hy].
    + rewrite (round64_pos y Hy). pose proof (round_pos_nonneg y Hy).
      destruct (Qeq_dec x 0) as [E|E].
      * now rewrite (round64_zero x E).
      * assert (Hx' : x < 0) by (destruct (Qlt_le_dec x 0); [assumption|]; exfalso; apply E; lra).
        rewrite (round64_neg x Hx').
        pose proof (round_pos_nonneg (- x)). lra.
    + destruct (Qeq_dec y 0) as [Ey|Ey].
      * rewrite (round64_zero y Ey).
        destruct (Qeq_dec x 0) as [Ex|Ex].
        -- rewrite (round64_zero x Ex). apply Qle_refl.
        -- assert (Hx' : x < 0) by (destruct (Qlt_le_dec x 0); [assumption|]; exfalso; apply Ex; lra).
           rewrite (round64_neg x Hx').
           pose proof (round_pos_nonneg (- x)). lra.
      * assert (Hy' : y < 0) by (destruct (Qlt_le_dec y 0); [assumption|]; exfalso; apply Ey; lra).
        assert (Hx' : x < 0) by lra.
        rewrite (round64_neg x Hx'), (round64_neg y Hy').
        assert (round_pos (- y) <= round_pos (- x))
          by (apply round_pos_mono; lra).
        lra.
Qed.

Lemma round64_comp (x y : Q) : x == y -> round64 x == round64 y.
Proof.
  intro H. apply Qle_antisym; apply round64_mono; rewrite H; apply Qle_refl.
Qed.

(** Exact numbers: an integer of at most 53 bits times a power of two
    in range. *)
Lemma round64_exact (z k : Z) :
  (Z.abs z < 2 ^ 53)%Z -> (emin <= k)%Z ->
  round64 (inject_Z z * pow2 k) == inject_Z z * pow2 k.
Proof.
  intros Hz Hk. pose proof (pow2_pos k) as Hp.
  destruct (Z.lt_trichotomy z 0) as [Hneg|[->|Hpos]].
  - assert (Hq : inject_Z z * pow2 k < 0).
    { assert (inject_Z z < 0)
        by (change 0 with (inject_Z 0); rewrite <- Zlt_Qlt; lia).
      assert (0 < - inject_Z z * pow2 k)
        by (apply Qmult_lt_0_compat; lra). lra. }
    rewrite (round64_neg _ Hq).
    assert (E : - (inject_Z z * pow2 k) == inject_Z (- z) * pow2 k)
      by (rewrite inject_Z_opp; ring).
    assert (E2 : round_pos (- (inject_Z z * pow2 k))
                 == round_pos (inject_Z (- z) * pow2 k)).
    { assert (0 < inject_Z (- z) * pow2 k) by (rewrite <- E; lra).
      rewrite <- !round64_pos by lra. now apply round64_comp. }
    rewrite E2, round_pos_exact by lia. rewrite inject_Z_opp. ring.
  - rewrite round64_zero; [ring | ring].
  - assert (Hq : 0 < inject_Z z * pow2 k).
    { apply Qmult_lt_0_compat; [|exact Hp].
      change 0 with (inject_Z 0). rewrite <- Zlt_Qlt. lia. }
    rewrite (round64_pos _ Hq). apply round_pos_exact; lia.
Qed.

Lemma round64_int (z : Z) :
  (Z.abs z < 2 ^ 53)%Z -> round64 (inject_Z z) == inject_Z z.
Proof.
  intro H. pose proof (round64_exact z 0 H) as E.
  assert (Ez : inject_Z z * pow2 0 == inject_Z z) by (unfold pow2; simpl; ring).
  rewrite <- Ez at 2. rewrite <- E by (unfold emin; lia).
  apply round64_comp. now rewrite Ez.
Qed.

Lemma round64_dyadic (z : Z) (j : positive) :
  (Z.abs z < 2 ^ 53)%Z -> (Z.pos j <= 1074)%Z ->
  round64 (inject_Z z / inject_Z (2 ^ Z.pos j))
  == inject_Z z / inject_Z (2 ^ Z.pos j).
Proof.
  intros Hz Hj.
  assert (E : inject_Z z / inject_Z (2 ^ Z.pos j)
              == inject_Z z * pow2 (- Z.pos j)).
  { unfold pow2, Qdiv. rewrite Qpower_opp.
    apply Qmult_comp; [reflexivity|]. apply Qinv_comp.
    rewrite Zpower_Qpower by lia. reflexivity. }
  rewrite (round64_comp _ _ E), E.
  apply round64_exact; [exact Hz | unfold emin; lia].
Qed.


(** ** The error of rounding *)

Lemma rne_error (t : Q) : Qabs (inject_Z (rne t) - t) <= 1 # 2.
Proof.
  pose proof (Qfloor_le t) as Hlo. pose proof (Qlt_floor t) as Hhi.
  rewrite inject_Z_plus in Hhi. change (inject_Z 1) with 1 in Hhi.
  apply Qabs_Qle_condition. unfold rne.
  destruct (t - inject_Z (Qfloor t) ?= 1 # 2) eqn:E; compare_to_order.
  - destruct (Z.even (Qfloor t)).
    + split; lra.
    + rewrite inject_Z_plus. change (inject_Z 1) with 1. split; lra.
  - split; lra.
  - rewrite inject_Z_plus. change (inject_Z 1) with 1. split; lra.
Qed.

Lemma round_pos_error (q : Q) (e : Z) :
  0 < q -> q < pow2 e -> (emin <= e - 53)%Z ->
  Qabs (round_pos q - q) <= pow2 (e - 54).
Proof.
  intros Hq Hlt He. unfold round_pos.
  set (u := ulp_exp q). pose proof (pow2_pos u) as Hp.
  destruct (ilog2_spec q Hq) as [Hle _].
  assert (Hi : (ilog2 q < e)%Z).
  { apply pow2_lt_inv. lra. }
  assert (Hu : (u <= e - 53)%Z) by (unfold u, ulp_exp; lia).
  set (t := q / pow2 u).
  assert (Eq : q == t * pow2 u) by (unfold t; field; lra).
  assert (E : inject_Z (rne t) * pow2 u - q == (inject_Z (rne t) - t) * pow2 u).
  { rewrite Eq at 1. ring. }
  rewrite E, Qabs_Qmult, (Qabs_pos (pow2 u)) by lra.
  pose proof (rne_error t) as Hr.
  apply Qle_trans with ((1 # 2) * pow2 u).
  - apply Qmult_le_compat_r; [exact Hr | lra].
  - replace (e - 54)%Z with ((e - 53) + -1)%Z by lia.
    rewrite pow2_add. change (pow2 (-1)) with (1 # 2).
    pose proof (pow2_le u (e - 53) Hu). lra.
Qed.

Lemma round64_error (x : Q) (e : Z) :
  Qabs x < pow2 e -> (emin <= e - 53)%Z ->
  Qabs (round64 x - x) <= pow2 (e - 54).
Proof.
  intros Hx He. pose proof (pow2_pos (e - 54)) as Hp.
  destruct (Qlt_le_dec 0 x) as [Hpos|Hle].
  - rewrite (round64_pos x Hpos). rewrite Qabs_pos in Hx by lra.
    now apply round_pos_error.
  - destruct (Qeq_dec x 0) as [E0|E0].
    + rewrite (round64_zero x E0). rewrite E0.
      assert (E : 0 - 0 == 0) by ring. rewrite E. simpl. lra.
    + assert (Hneg : x < 0)
        by (destruct (Qlt_le_dec x 0); [assumption|]; exfalso; apply E0; lra).
      rewrite (round64_neg x Hneg). rewrite Qabs_neg in Hx by lra.
      pose proof (round_pos_error (- x) e) as H.
      assert (E : - round_pos (- x) - x == - (round_pos (- x) - - x)) by ring.
      rewrite E, Qabs_opp. apply H; [lra | exact Hx | exact He].
Qed.

(** ** The arithmetic of the code *)

Lemma float_of_int_exact (n : Z) :
  (Z.abs n < 2 ^ 53)%Z -> float_of_int n == inject_Z n.
Proof. apply round64_int. Qed.

Lemma int_truediv_half (z : Z) :
  (Z.abs z < 2 ^ 53)%Z -> int_truediv z 2 == inject_Z z / 2.
Proof.
  intro H. unfold int_truediv.
  apply (round64_dyadic z 1 H). lia.
Qed.

Lemma half_exact (z : Z) :
  (Z.abs z < 2 ^ 53)%Z -> round64 (inject_Z z / 2) == inject_Z z / 2.
Proof. intro H. apply (round64_dyadic z 1 H). lia. Qed.

End Rounding.


Lemma join_snoc_extend (sep : str) (ws : list str) (a b : str) :
  join sep (ws ++ [a ++ b]) = join sep (ws ++ [a]) ++ b.
Proof.
  induction ws as [|w ws IH]; simpl.
  - reflexivity.
  - destruct ws as [|w' ws']; simpl in *.
    + now rewrite !app_assoc.
    + rewrite IH. now rewrite !app_assoc.
Qed.

Lemma join_snoc_new (sep : str) (ws : list str) (a b : str) :
  join sep ((ws ++ [a]) ++ [b]) = join sep (ws ++ [a]) ++ sep ++ b.
Proof.
  induction ws as [|w ws IH]; simpl.
  - reflexivity.
  - destruct ws as [|w' ws']; simpl in *.
    + now rewrite <- !app_assoc.
    + rewrite IH. now rewrite <- !app_assoc.
Qed.

(** ** The stable sort *)

Section SortFacts.

Context {A : Type} (le : A -> A -> bool).

Lemma insert_perm (x : A) (l : list A) : Permutation (x :: l) (insert le x l).
Proof.
  induction l as [|y l IH]; simpl.
  - reflexivity.
  - destruct (le x y); [reflexivity|].
    rewrite perm_swap. now constructor.
Qed.

Lemma sort_by_perm (l : list A) : Permutation l (sort_by le l).
Proof.
  induction l as [|x l IH]; simpl.
  - constructor.
  - rewrite <- insert_perm. now constructor.
Qed.

Lemma sort_by_in (l : list A) (x : A) : In x (sort_by le l) <-> In x l.
Proof.
  split; apply Permutation_in; [symmetry|]; apply sort_by_perm.
Qed.

Lemma sort_by_length (l : list A) : length (sort_by le l) = length l.
Proof. symmetry. apply Permutation_length, sort_by_perm. Qed.

Lemma sort_by_nil_iff (l : list A) : sort_by le l = [] <-> l = [].
Proof.
  split; intro H.
  - apply length_zero_iff_nil. rewrite <- sort_by_length, H. reflexivity.
  - subst. reflexivity.
Qed.

(** Sortedness for any preorder [R] that the test decides totally. *)
Variable R : A -> A -> Prop.
Hypothesis R_trans : forall a b c, R a b -> R b c -> R a c.
Hypothesis le_R : forall a b, le a b = true -> R a b.
Hypothesis not_le_R : forall a b, le a b = false -> R b a.

Lemma insert_sorted (x : A) (l : list A) :
  StronglySorted R l -> StronglySorted R (insert le x l).
Proof.
  induction 1 as [|y l Hs IH Hy]; simpl.
  - repeat constructor.
  - destruct (le x y) eqn:E.
    + constructor; [now constructor|].
      constructor; [now apply le_R|].
      eapply Forall_impl; [|exact Hy]. intros z Hz.
      eapply R_trans; [apply le_R; exact E | exact Hz].
    + constructor; [exact IH|].
      rewrite Forall_forall. intros z Hz.
      apply (Permutation_in _ (Permutation_sym (insert_perm x l))) in Hz.
      destruct Hz as [->|Hz]; [now apply not_le_R|].
      rewrite Forall_forall in Hy. now apply Hy.
Qed.

Lemma sort_by_sorted (l : list A) : StronglySorted R (sort_by le l).
Proof.
  induction l as [|x l IH]; simpl; [constructor | now apply insert_sorted].
Qed.

(** Sorting a list whose first part lies wholly before its second part
    sorts the two parts separately. *)
Lemma insert_before (x : A) (la lb : list A) :
  (forall y, In y lb -> le x y = true) ->
  insert le x (la ++ lb) = insert le x la ++ lb.
Proof.
  intro H. induction la as [|a la IH]; simpl.
  - destruct lb as [|b lb]; [reflexivity|].
    simpl. now rewrite (H b (or_introl eq_refl)).
  - destruct (le x a); [reflexivity|]. simpl. now rewrite IH.
Qed.

Lemma insert_after (x : A) (la lb : list A) :
  (forall y, In y la -> le x y = false) ->
  insert le x (la ++ lb) = la ++ insert le x lb.
Proof.
  intro H. induction la as [|a la IH]; simpl.
  - reflexivity.
  - rewrite (H a (or_introl eq_refl)).
    rewrite IH; [reflexivity|]. intros y Hy. apply H. now right.
Qed.

Lemma sort_by_split (first : A -> bool) (l : list A) :
  (forall a b, In a l -> In b l ->
               first a = true -> first b = false ->
               le a b = true /\ le b a = false) ->
  sort_by le l
  = sort_by le (filter first l)
    ++ sort_by le (filter (fun b => negb (first b)) l).
Proof.
  induction l as [|x l IH]; intro H; simpl.
  - reflexivity.
  - rewrite IH by (intros a b Ha Hb; apply H; now right).
    destruct (first x) eqn:E; simpl.
    + apply insert_before. intros y Hy.
      apply (proj1 (sort_by_in _ _)) in Hy. apply filter_In in Hy. destruct Hy as [Hy Hf].
      apply negb_true_iff in Hf.
      apply (H x y); [now left | now right | exact E | exact Hf].
    + apply insert_after. intros y Hy.
      apply (proj1 (sort_by_in _ _)) in Hy. apply filter_In in Hy. destruct Hy as [Hy Hf].
      apply (H y x); [now right | now left | exact Hf | exact E].
Qed.

End SortFacts.


(** Linear arithmetic on rationals: division by a constant is written
    as a product, and the facts on integers are set aside. *)
Ltac no_div :=
  unfold Qdiv in *;
  change (/ 2)%Q with (1 # 2)%Q in *;
  change (/ 16)%Q with (1 # 16)%Q in *;
  change (/ 32)%Q with (1 # 32)%Q in *;
  repeat match goal with
         | H : context [Z.lt _ _] |- _ => clear H
         | H : context [Z.le _ _] |- _ => clear H
         end.

(** Powers of two with a literal exponent, as numerals. *)
Ltac eval_pow :=
  repeat match goal with
         | |- context [Z.pow 2 (Zpos ?n)] =>
             let v := eval vm_compute in (Z.pow 2 (Zpos n)) in
             change (Z.pow 2 (Zpos n)) with v
         | H : context [Z.pow 2 (Zpos ?n)] |- _ =>
             let v := eval vm_compute in (Z.pow 2 (Zpos n)) in
             change (Z.pow 2 (Zpos n)) with v in H
         end.

(** ** Words *)

Lemma merge_loop_spec (median_h : number) (rest : list Box.t) :
  forall words current_word prev,
    join [SP] (merge_loop median_h words current_word prev rest)
    = join [SP] (words ++ [current_word])
      ++ spec_line_from (word_break median_h) prev rest.
Proof.
  induction rest as [|b rest IH]; intros words cw prev; simpl.
  - now rewrite app_nil_r.
  - destruct (word_break median_h prev b); rewrite IH.
    + rewrite join_snoc_new. now rewrite <- !app_assoc.
    + rewrite join_snoc_extend. now rewrite <- !app_assoc.
Qed.

(** The literals 0.7 and 0.6 lie just below the decimals they stand
    for. *)
Lemma literal_07 :
  (float_literal (7 # 10) <= 7 # 10
   /\ (7 # 10) - (1 # 2 ^ 50) <= float_literal (7 # 10)
   /\ 0 <= float_literal (7 # 10))%Q.
Proof.
  split; [|split]; apply Qle_bool_iff; vm_compute; reflexivity.
Qed.

Lemma literal_06 :
  (float_literal (6 # 10) <= 6 # 10
   /\ (6 # 10) - (1 # 2 ^ 50) <= float_literal (6 # 10)
   /\ 0 <= float_literal (6 # 10))%Q.
Proof.
  split; [|split]; apply Qle_bool_iff; vm_compute; reflexivity.
Qed.

(** A median that is a multiple of one half below 2 ** 41 is the same
    as a float. *)
Lemma as_float_value (median_h : number) (k : Z) :
  (value_of median_h == inject_Z k / 2)%Q -> 0 < k < 2 ^ 42 ->
  (as_float median_h == value_of median_h)%Q.
Proof.
  intros Hv Hk. destruct median_h as [n|x]; [|reflexivity].
  cbn [as_float value_of] in *. apply float_of_int_exact.
  assert (E : (inject_Z (2 * n) == inject_Z k)%Q).
  { rewrite inject_Z_mult. change (inject_Z 2) with 2%Q. no_div. lra. }
  apply (proj1 (inject_Z_injective _ _)) in E. eval_pow. lia.
Qed.

Section Threshold.

Variable median_h : number.
Variable k : Z.
Hypothesis Hvalue : (value_of median_h == inject_Z k / 2)%Q.
Hypothesis Hk : 0 < k < 2 ^ 42.

Let threshold : Q := fmul (as_float median_h) (float_literal (7 # 10)).

Lemma inject_k_bounds : (0 < inject_Z k /\ inject_Z k < 4398046511104)%Q.
Proof.
  change 0%Q with (inject_Z 0).
  change 4398046511104%Q with (inject_Z (2 ^ 42)).
  rewrite <- !Zlt_Qlt. exact Hk.
Qed.

(** A gap above 70% of the median height is above the product the code
    computes. *)
Lemma threshold_below (g : Z) :
  (word_threshold (value_of median_h) < inject_Z g)%Q ->
  (threshold < inject_Z g)%Q.
Proof.
  intro Hg. unfold word_threshold in Hg. rewrite Hvalue in Hg.
  destruct inject_k_bounds as [Hk0 Hk1].
  destruct literal_07 as (Hc1 & Hc2 & Hc0).
  pose proof (as_float_value median_h k Hvalue Hk) as Ef.
  set (U := (56 * k + 4) / 5).
  assert (HU : 56 * k <= 5 * U <= 56 * k + 4).
  { unfold U. pose proof (Z.div_mod (56 * k + 4) 5 ltac:(lia)).
    pose proof (Z.mod_pos_bound (56 * k + 4) 5 ltac:(lia)). (eval_pow; lia). }
  assert (Hg' : 7 * k < 20 * g).
  { rewrite Zlt_Qlt. rewrite !inject_Z_mult.
    change (inject_Z 7) with 7%Q. change (inject_Z 20) with 20%Q.
    no_div. lra. }
  assert (Hu : (round64 (inject_Z U / inject_Z (2 ^ 5))
                == inject_Z U / inject_Z (2 ^ 5))%Q).
  { apply round64_dyadic; (eval_pow; lia). }
  change (inject_Z (2 ^ 5)) with 32%Q in Hu.
  assert (Hprod : (as_float median_h * float_literal (7 # 10)
                   <= inject_Z U / 32)%Q).
  { rewrite Ef, Hvalue.
    apply Qle_trans with (inject_Z k / 2 * (7 # 10))%Q.
    - apply Qmult_le_l; [no_div; lra | exact Hc1].
    - assert (HU' : (inject_Z (56 * k) <= inject_Z (5 * U))%Q)
        by (rewrite <- Zle_Qle; lia).
      rewrite !inject_Z_mult in HU'.
      change (inject_Z 56) with 56%Q in HU'.
      change (inject_Z 5) with 5%Q in HU'. no_div. lra. }
  unfold threshold, fmul.
  apply Qle_lt_trans with (inject_Z U / 32)%Q.
  - rewrite <- Hu. now apply round64_mono.
  - assert (HU' : (inject_Z (5 * U) < inject_Z (160 * g))%Q)
      by (rewrite <- Zlt_Qlt; lia).
    rewrite !inject_Z_mult in HU'.
    change (inject_Z 160) with 160%Q in HU'.
    change (inject_Z 5) with 5%Q in HU'. no_div. lra.
Qed.

(** A gap below 70% of the median height is not above that product. *)
Lemma threshold_above (g : Z) :
  (inject_Z g < word_threshold (value_of median_h))%Q ->
  (inject_Z g <= threshold)%Q.
Proof.
  intro Hg. unfold word_threshold in Hg. rewrite Hvalue in Hg.
  destruct inject_k_bounds as [Hk0 Hk1].
  destruct literal_07 as (Hc1 & Hc2 & Hc0).
  pose proof (as_float_value median_h k Hvalue Hk) as Ef.
  assert (Hx0 : (0 <= as_float median_h * float_literal (7 # 10))%Q).
  { apply Qmult_le_0_compat; [rewrite Ef, Hvalue; no_div; lra | exact Hc0]. }
  unfold threshold, fmul.
  destruct (Z.le_gt_cases g 0) as [Hneg|Hpos].
  - apply Qle_trans with 0%Q.
    + change 0%Q with (inject_Z 0). rewrite <- Zle_Qle. exact Hneg.
    + rewrite <- (round64_zero 0 ltac:(reflexivity)). now apply round64_mono.
  - assert (Hg' : 20 * g < 7 * k).
    { rewrite Zlt_Qlt. rewrite !inject_Z_mult.
      change (inject_Z 7) with 7%Q. change (inject_Z 20) with 20%Q.
      no_div. lra. }
    assert (Eg : (round64 (inject_Z g) == inject_Z g)%Q)
      by (apply round64_int; lia).
    rewrite <- Eg. apply round64_mono.
    rewrite Ef, Hvalue.
    apply Qle_trans with (inject_Z k / 2 * ((7 # 10) - (1 # 2 ^ 50)))%Q.
    + assert (Hg2 : (inject_Z (20 * g) + 1 <= inject_Z (7 * k))%Q).
      { change 1%Q with (inject_Z 1). rewrite <- inject_Z_plus, <- Zle_Qle. (eval_pow; lia). }
      rewrite !inject_Z_mult in Hg2.
      change (inject_Z 7) with 7%Q in Hg2.
      change (inject_Z 20) with 20%Q in Hg2.
      change (1 # 2 ^ 50)%Q with (1 # 1125899906842624)%Q. no_div. lra.
    + apply Qmult_le_l; [no_div; lra | exact Hc2].
Qed.

End Threshold.

(** C8, as the code has it. Within a line the detections are taken by
    left edge; between two neighbours the code starts a new word exactly
    when the gap exceeds the binary64 product of the median height by
    0.7.  For a median height that is a multiple of one half below
    2 ** 41, a gap above 70% of the median height starts a new word and a
    gap below 70% never does; the words are joined by one space. *)
Theorem C8_word_merging (boxes : list Box.t) (median_h : number) (k : Z) :
  (value_of median_h == inject_Z k / 2)%Q -> 0 < k < 2 ^ 42 ->
  exists ordered breaks,
    Permutation boxes ordered
    /\ StronglySorted (fun a b => Box.left a <= Box.left b) ordered
    /\ _merge_boxes_into_words boxes median_h = spec_line breaks ordered
    /\ forall prev b,
        (breaks prev b = true
         <-> (round64 (value_of median_h * round64 (7 # 10))
              < inject_Z (gap prev b))%Q)
        /\ ((word_threshold (value_of median_h) < inject_Z (gap prev b))%Q ->
            breaks prev b = true)
        /\ ((inject_Z (gap prev b) < word_threshold (value_of median_h))%Q ->
            breaks prev b = false).
Proof.
  intros Hv Hk.
  exists (sort_by left_le boxes), (word_break median_h).
  split; [apply sort_by_perm|]. split.
  { apply sort_by_sorted.
    - intros a b c. lia.
    - intros a b H. unfold left_le in H. lia.
    - intros a b H. unfold left_le in H. lia. }
  split.
  { unfold _merge_boxes_into_words, spec_line.
    destruct (sort_by left_le boxes) as [|b0 rest]; [reflexivity|].
    apply (merge_loop_spec median_h rest [] (Box.text b0) b0). }
  intros prev b. unfold word_break, gap. split; [|split]; try intro H.
  - rewrite Qltb_lt. unfold fmul, float_literal.
    assert (E : (round64 (as_float median_h * round64 (7 # 10))
                 == round64 (value_of median_h * round64 (7 # 10)))%Q).
    { apply round64_comp.
      now rewrite (as_float_value median_h k Hv Hk). }
    now rewrite E.
  - apply Qltb_lt. now apply (threshold_below median_h k Hv Hk).
  - apply Qltb_false. now apply (threshold_above median_h k Hv Hk).
Qed.

Lemma C8_word_merging_witness :
  exists ordered breaks,
    Permutation apart_63 ordered
    /\ StronglySorted (fun a b => Box.left a <= Box.left b) ordered
    /\ _merge_boxes_into_words apart_63 (PyInt 90) = spec_line breaks ordered
    /\ forall prev b,
        (breaks prev b = true
         <-> (round64 (value_of (PyInt 90) * round64 (7 # 10))
              < inject_Z (gap prev b))%Q)
        /\ ((word_threshold (value_of (PyInt 90)) < inject_Z (gap prev b))%Q ->
            breaks prev b = true)
        /\ ((inject_Z (gap prev b) < word_threshold (value_of (PyInt 90)))%Q ->
            breaks prev b = false).
Proof.
  apply (C8_word_merging apart_63 (PyInt 90) 180).
  - reflexivity.
  - lia.
Defined.

(** C8, as the specification has it, fails: with a median height of 90,
    a gap of 63 does not exceed 70% of it, and yet starts a new word,
    since the product 90 x 0.7 of the code is below 63. *)
Lemma C8_word_merging_counterexample :
  let median_h := PyInt 90 in
  (forall prev b, In prev apart_63 -> In b apart_63 ->
                  (inject_Z (gap prev b) <= word_threshold (value_of median_h))%Q)
  /\ _merge_boxes_into_words apart_63 median_h = lit "a b"
  /\ _merge_boxes_into_words apart_63 median_h
     <> spec_line (fun _ _ => false) apart_63.
Proof.
  cbv zeta. split; [|split].
  - intros prev b [<-|[<-|[]]] [<-|[<-|[]]];
      apply Qle_bool_iff; vm_compute; reflexivity.
  - vm_compute. reflexivity.
  - vm_compute. discriminate.
Qed.

(** ** The sort key *)

Lemma key_le_above (a b : Box.t) : key_le a b = true -> above_or_level a b.
Proof.
  unfold key_le, above_or_level. intro H. apply orb_true_iff in H.
  destruct H as [H|H].
  - apply Qltb_lt in H. lra.
  - apply andb_true_iff in H. destruct H as [H _].
    apply Qeq_bool_iff in H. lra.
Qed.

Lemma key_not_le_above (a b : Box.t) : key_le a b = false -> above_or_level b a.
Proof.
  unfold key_le, above_or_level. intro H. apply orb_false_iff in H.
  destruct H as [H _]. now apply Qltb_false in H.
Qed.

Lemma key_le_strict (a b : Box.t) :
  (Box.mid_y a < Box.mid_y b)%Q -> key_le a b = true /\ key_le b a = false.
Proof.
  intro H. unfold key_le. split.
  - apply orb_true_iff. left. now apply Qltb_lt.
  - apply orb_false_iff. split.
    + apply Qltb_false. lra.
    + apply andb_false_iff. left.
      destruct (Qeq_bool (Box.mid_y b) (Box.mid_y a)) eqn:E; [|reflexivity].
      apply Qeq_bool_iff in E. lra.
Qed.

Lemma sorted_by_centre (boxes : list Box.t) :
  StronglySorted above_or_level (sort_by key_le boxes).
Proof.
  apply sort_by_sorted.
  - unfold above_or_level. intros a b c H1 H2. lra.
  - exact key_le_above.
  - exact key_not_le_above.
Qed.

Lemma sorted_app_rel {A} (R : A -> A -> Prop) (l1 l2 : list A) :
  StronglySorted R (l1 ++ l2) ->
  forall x y, In x l1 -> In y l2 -> R x y.
Proof.
  induction l1 as [|a l1 IH]; intros Hs x y Hx Hy; [destruct Hx|].
  simpl in Hs. apply StronglySorted_inv in Hs. destruct Hs as [Hs Ha].
  destruct Hx as [->|Hx].
  - rewrite Forall_forall in Ha. apply Ha. apply in_or_app. now right.
  - now apply IH.
Qed.

Lemma sorted_app_r {A} (R : A -> A -> Prop) (l1 l2 : list A) :
  StronglySorted R (l1 ++ l2) -> StronglySorted R l2.
Proof.
  induction l1 as [|a l1 IH]; intro Hs; [exact Hs|].
  simpl in Hs. apply StronglySorted_inv in Hs. now apply IH.
Qed.

Lemma Qabs_gt_cases (u t : Q) : (t < Qabs u)%Q -> (t < u \/ t < - u)%Q.
Proof.
  intro H. destruct (Qlt_le_dec u 0) as [Hu|Hu].
  - right. rewrite Qabs_neg in H by lra. exact H.
  - left. rewrite Qabs_pos in H by lra. exact H.
Qed.

Lemma two_rows_two_groups (in_row : Box.t -> bool) (groups : list (list Box.t)) :
  Forall (single_row in_row) groups ->
  (exists a, In a (concat groups) /\ in_row a = true) ->
  (exists b, In b (concat groups) /\ in_row b = false) ->
  (2 <= length groups)%nat.
Proof.
  intros Hp (a & Ha & Ra) (b & Hb & Rb).
  destruct groups as [|g [|g' groups]]; simpl in *.
  - destruct Ha.
  - rewrite app_nil_r in Ha, Hb. apply Forall_inv in Hp.
    specialize (Hp a b Ha Hb). congruence.
  - lia.
Qed.


(** ** Boxes *)

Lemma fold_min_spec (r : list Z) :
  forall x, least (x :: r) (fold_left Z.min r x).
Proof.
  induction r as [|a r IH]; intro x; cbn [fold_left].
  - split; [now left | intros y [<-|[]]; lia].
  - destruct (IH (Z.min x a)) as [Hin Hle]. split.
    + destruct Hin as [E|Hin].
      * rewrite <- E. destruct (Z.min_spec x a) as [[_ ->]|[_ ->]];
          [now left | right; now left].
      * right; now right.
    + intros y Hy. assert (H0 := Hle (Z.min x a) (or_introl eq_refl)).
      destruct Hy as [<-|[<-|Hy]].
      * specialize (Hle (Z.min x a) (or_introl eq_refl)). lia.
      * specialize (Hle (Z.min x a) (or_introl eq_refl)). lia.
      * apply Hle. now right.
Qed.

Lemma fold_max_spec (r : list Z) :
  forall x, greatest (x :: r) (fold_left Z.max r x).
Proof.
  induction r as [|a r IH]; intro x; cbn [fold_left].
  - split; [now left | intros y [<-|[]]; lia].
  - destruct (IH (Z.max x a)) as [Hin Hle]. split.
    + destruct Hin as [E|Hin].
      * rewrite <- E. destruct (Z.max_spec x a) as [[_ ->]|[_ ->]];
          [right; now left | now left].
      * right; now right.
    + intros y Hy.
      destruct Hy as [<-|[<-|Hy]].
      * specialize (Hle (Z.max x a) (or_introl eq_refl)). lia.
      * specialize (Hle (Z.max x a) (or_introl eq_refl)). lia.
      * apply Hle. now right.
Qed.

Lemma py_min_spec (xs : list Z) (m : Z) : py_min xs = Ok m -> least xs m.
Proof.
  destruct xs as [|x r]; [discriminate|]. intro H. injection H as <-.
  apply fold_min_spec.
Qed.

Lemma py_max_spec (xs : list Z) (m : Z) : py_max xs = Ok m -> greatest xs m.
Proof.
  destruct xs as [|x r]; [discriminate|]. intro H. injection H as <-.
  apply fold_max_spec.
Qed.

Lemma make_box_describes (item : detection) (b : Box.t) :
  make_box item = Ok b ->
  (forall y, In y (ordinates item) -> Z.abs y < 2 ^ 20) ->
  describes item b /\ centred b /\ 1 <= Box.height b < 2 ^ 21.
Proof.
  unfold make_box. intros H Hb.
  fold (abscissas item) in H. fold (ordinates item) in H.
  destruct (py_min (abscissas item)) as [left|] eqn:El; [|discriminate].
  destruct (py_max (abscissas item)) as [right|] eqn:Er; [|discriminate].
  destruct (py_min (ordinates item)) as [top|] eqn:Et; [|discriminate].
  destruct (py_max (ordinates item)) as [bottom|] eqn:Eb; [|discriminate].
  cbn [rbind] in H. injection H as <-.
  apply py_min_spec in El, Et. apply py_max_spec in Er, Eb.
  assert (Ht : Z.abs top < 2 ^ 20) by (apply Hb, Et).
  assert (Hbt : Z.abs bottom < 2 ^ 20) by (apply Hb, Eb).
  assert (Hle : top <= bottom) by (apply Et, Eb).
  assert (Em : (int_truediv (top + bottom) 2 == inject_Z (top + bottom) / 2)%Q).
  { apply int_truediv_half. eval_pow. lia. }
  split; [|split].
  - exists top, bottom. cbn [Box.left Box.right Box.text Box.mid_y Box.height].
    repeat split; try assumption; try reflexivity;
      try apply El; try apply Er; try apply Et; try apply Eb.
  - exists (top + bottom). cbn [Box.mid_y]. split; [exact Em|]. eval_pow. lia.
  - cbn [Box.height]. eval_pow. lia.
Qed.

Lemma make_boxes_describes (items : list detection) :
  forall boxes,
    make_boxes items = Ok boxes ->
    (forall d y, In d items -> In y (ordinates d) -> Z.abs y < 2 ^ 20) ->
    Forall2 describes items boxes
    /\ Forall centred boxes
    /\ Forall (fun b => 1 <= Box.height b < 2 ^ 21) boxes.
Proof.
  induction items as [|item items IH]; intros boxes H Hb; simpl in H.
  - injection H as <-. repeat constructor.
  - destruct (make_box item) as [b|] eqn:Eb; [|discriminate].
    destruct (make_boxes items) as [bs|]; [|discriminate].
    cbn [rbind] in H. injection H as <-.
    destruct (make_box_describes item b Eb) as (H1 & H2 & H3).
    { intros y Hy. apply (Hb item y); [now left | exact Hy]. }
    destruct (IH bs eq_refl) as (I1 & I2 & I3).
    { intros d y Hd Hy. apply (Hb d y); [now right | exact Hy]. }
    repeat split; constructor; assumption.
Qed.

(** ** The median *)

Lemma median_nonempty (data : list Z) :
  data <> [] -> exists m, median data = Ok m.
Proof.
  intro Hne. unfold median.
  destruct (length (sort_by Z.leb data)) eqn:E.
  - rewrite sort_by_length in E. apply length_zero_iff_nil in E. contradiction.
  - destruct (Nat.odd (S n)); eauto.
Qed.


Lemma median_spec (data : list Z) (v : number) :
  median data = Ok v ->
  (forall x, In x data -> 1 <= x < 2 ^ 21) ->
  median_of data (value_of v)
  /\ exists k, (value_of v == inject_Z k / 2)%Q /\ 0 < k < 2 ^ 42.
Proof.
  unfold median. intros H Hb.
  set (d := sort_by Z.leb data) in *.
  assert (Hperm : Permutation data d) by apply sort_by_perm.
  assert (Hsorted : Sorted Z.le d).
  { apply StronglySorted_Sorted. apply sort_by_sorted.
    - intros a b c. lia.
    - intros a b E. apply Z.leb_le in E. exact E.
    - intros a b E. apply Z.leb_gt in E. lia. }
  assert (Hnth : forall i, (i < length d)%nat -> 1 <= nth i d 0 < 2 ^ 21).
  { intros i Hi. apply Hb. apply (Permutation_in _ (Permutation_sym Hperm)).
    now apply nth_In. }
  destruct (length d) as [|n'] eqn:En; [discriminate|].
  assert (Hne : d <> []) by (intro E; rewrite E in En; discriminate).
  assert (Hhalf : (S n' / 2 < S n')%nat) by (apply Nat.div_lt; lia).
  rewrite <- En in *. clearbody d.
  destruct (Nat.odd (length d)) eqn:Eodd; injection H as <-;
    change (fst (Nat.divmod (length d) 1 0 1)) with (length d / 2)%nat.
  - assert (Eeven : Nat.even (length d) = false)
      by (rewrite <- Nat.negb_odd, Eodd; reflexivity).
    pose proof (Hnth (length d / 2)%nat Hhalf) as Hm.
    split.
    + exists d. repeat split; try assumption. cbv zeta. rewrite Eeven.
      reflexivity.
    + exists (2 * nth (length d / 2) d 0). cbn [value_of]. split.
      * rewrite inject_Z_mult. change (inject_Z 2) with 2%Q.
        no_div. lra.
      * eval_pow. lia.
  - assert (Eeven : Nat.even (length d) = true)
      by (rewrite <- Nat.negb_odd, Eodd; reflexivity).
    pose proof (Hnth (length d / 2)%nat Hhalf) as Hm.
    assert (Hm1 : 1 <= nth (length d / 2 - 1) d 0 < 2 ^ 21).
    { apply Hnth. eapply Nat.le_lt_trans; [apply Nat.le_sub_l | exact Hhalf]. }
    set (a := nth (length d / 2 - 1) d 0) in *.
    set (b := nth (length d / 2) d 0) in *.
    assert (E : (int_truediv (a + b) 2 == inject_Z (a + b) / 2)%Q).
    { apply int_truediv_half. eval_pow. lia. }
    split.
    + exists d. repeat split; try assumption. cbv zeta. rewrite Eeven.
      cbn [value_of]. exact E.
    + exists (a + b).
      cbn [value_of]. split; [exact E|]. eval_pow. lia.
Qed.

(** ** The tolerance *)

Section Tolerance.

Variable median_h : number.
Variable k : Z.
Hypothesis Hvalue : (value_of median_h == inject_Z k / 2)%Q.
Hypothesis Hk : 0 < k < 2 ^ 42.

Let product : Q := fmul (as_float median_h) (float_literal (6 # 10)).

Lemma product_upper : (product <= value_of median_h * (6 # 10) + (1 # 40))%Q.
Proof.
  destruct (inject_k_bounds k Hk) as [Hk0 Hk1].
  destruct literal_06 as (Hc1 & Hc2 & Hc0).
  pose proof (as_float_value median_h k Hvalue Hk) as Ef.
  set (U := (48 * k + 4) / 5).
  assert (HU : 48 * k <= 5 * U <= 48 * k + 4).
  { unfold U. pose proof (Z.div_mod (48 * k + 4) 5 ltac:(lia)).
    pose proof (Z.mod_pos_bound (48 * k + 4) 5 ltac:(lia)). lia. }
  assert (Hu : (round64 (inject_Z U / inject_Z (2 ^ 5))
                == inject_Z U / inject_Z (2 ^ 5))%Q).
  { apply round64_dyadic; eval_pow; lia. }
  change (inject_Z (2 ^ 5)) with 32%Q in Hu.
  assert (HU1 : (inject_Z (48 * k) <= inject_Z (5 * U))%Q)
    by (rewrite <- Zle_Qle; lia).
  assert (HU2 : (inject_Z (5 * U) <= inject_Z (48 * k + 4))%Q)
    by (rewrite <- Zle_Qle; lia).
  rewrite inject_Z_plus, !inject_Z_mult in *.
  change (inject_Z 48) with 48%Q in *. change (inject_Z 5) with 5%Q in *.
  change (inject_Z 4) with 4%Q in *.
  unfold product, fmul.
  apply Qle_trans with (inject_Z U / 32)%Q.
  - rewrite <- Hu. apply round64_mono. rewrite Ef, Hvalue.
    apply Qle_trans with (inject_Z k / 2 * (6 # 10))%Q.
    + apply Qmult_le_l; [no_div; lra | exact Hc1].
    + no_div. lra.
  - rewrite Hvalue. no_div. lra.
Qed.

Lemma product_lower : (value_of median_h * (6 # 10) - (1 # 16) < product)%Q.
Proof.
  destruct (inject_k_bounds k Hk) as [Hk0 Hk1].
  destruct literal_06 as (Hc1 & Hc2 & Hc0).
  pose proof (as_float_value median_h k Hvalue Hk) as Ef.
  set (L := (48 * k) / 5 - 1).
  assert (HL : 48 * k - 9 <= 5 * L <= 48 * k - 5).
  { unfold L. pose proof (Z.div_mod (48 * k) 5 ltac:(lia)).
    pose proof (Z.mod_pos_bound (48 * k) 5 ltac:(lia)). lia. }
  assert (Hl : (round64 (inject_Z L / inject_Z (2 ^ 5))
                == inject_Z L / inject_Z (2 ^ 5))%Q).
  { apply round64_dyadic; eval_pow; lia. }
  change (inject_Z (2 ^ 5)) with 32%Q in Hl.
  assert (HL1 : (inject_Z (48 * k - 9) <= inject_Z (5 * L))%Q)
    by (rewrite <- Zle_Qle; lia).
  assert (HL2 : (inject_Z (5 * L) <= inject_Z (48 * k - 5))%Q)
    by (rewrite <- Zle_Qle; lia).
  unfold Z.sub in HL1, HL2.
  rewrite inject_Z_plus, !inject_Z_mult in *.
  change (inject_Z 48) with 48%Q in *. change (inject_Z 5) with 5%Q in *.
  change (inject_Z (- (9))) with (- 9)%Q in *.
  change (inject_Z (- (5))) with (- 5)%Q in *.
  unfold product, fmul.
  apply Qlt_le_trans with (inject_Z L / 32)%Q.
  - rewrite Hvalue. no_div. lra.
  - rewrite <- Hl. apply round64_mono. rewrite Ef, Hvalue.
    apply Qle_trans with (inject_Z k / 2 * ((6 # 10) - (1 # 2 ^ 50)))%Q.
    + change (1 # 2 ^ 50)%Q with (1 # 1125899906842624)%Q. no_div. lra.
    + apply Qmult_le_l; [no_div; lra | exact Hc2].
Qed.

(** The tolerance of the code is the tolerance of the specification to
    within a sixteenth of a pixel. *)
Lemma line_tol_bracket :
  (tolerance (value_of median_h) - (1 # 16) < line_tol median_h
   /\ line_tol median_h < tolerance (value_of median_h) + (1 # 16))%Q.
Proof.
  pose proof product_upper as Hu. pose proof product_lower as Hl.
  unfold line_tol. fold product. unfold tolerance.
  set (x := (value_of median_h * (6 # 10))%Q) in *.
  destruct (Q.max_spec 8 x) as [[Hx E]|[Hx E]]; rewrite E;
    destruct (Qltb 8 product) eqn:Et;
    [apply Qltb_lt in Et | apply Qltb_false in Et
     | apply Qltb_lt in Et | apply Qltb_false in Et]; split; lra.
Qed.

(** A multiple of one half above the tolerance of the specification is
    above the tolerance of the code. *)
Lemma line_tol_sharp (D : Z) :
  (tolerance (value_of median_h) < inject_Z D / 2)%Q ->
  (line_tol median_h < inject_Z D / 2)%Q.
Proof.
  intro Hd. pose proof product_upper as Hu.
  destruct (inject_k_bounds k Hk) as [Hk0 Hk1].
  unfold tolerance in Hd. unfold line_tol. fold product.
  set (x := (value_of median_h * (6 # 10))%Q) in *.
  assert (H8 : (8 < inject_Z D / 2)%Q)
    by (pose proof (Q.le_max_l 8 x); lra).
  assert (Hx : (x < inject_Z D / 2)%Q)
    by (pose proof (Q.le_max_r 8 x); lra).
  destruct (Qltb 8 product) eqn:Et; [|exact H8].
  assert (H5 : 3 * k < 5 * D).
  { rewrite Zlt_Qlt, !inject_Z_mult.
    change (inject_Z 3) with 3%Q. change (inject_Z 5) with 5%Q.
    unfold x in Hx. rewrite Hvalue in Hx. no_div. lra. }
  assert (H6 : (inject_Z (3 * k) + 1 <= inject_Z (5 * D))%Q).
  { change 1%Q with (inject_Z 1). rewrite <- inject_Z_plus, <- Zle_Qle. lia. }
  rewrite !inject_Z_mult in H6.
  change (inject_Z 3) with 3%Q in H6. change (inject_Z 5) with 5%Q in H6.
  unfold x in Hu. rewrite Hvalue in Hu. no_div. lra.
Qed.

End Tolerance.

(** ** The sweep *)

Lemma group_loop_sweep (median_h : number) (tol : Q) (rest : list Box.t) :
  forall lines current cur_y,
    current <> [] ->
    snd (group_loop median_h tol lines current cur_y rest) <> []
    /\ fst (group_loop median_h tol lines current cur_y rest)
       ++ [_merge_boxes_into_words
             (snd (group_loop median_h tol lines current cur_y rest)) median_h]
       = lines ++ map (fun g => _merge_boxes_into_words g median_h)
                      (sweep tol current cur_y rest).
Proof.
  induction rest as [|b rest IH]; intros lines current cur_y Hne;
    cbn [group_loop sweep].
  - split; [exact Hne | reflexivity].
  - destruct (same_line tol cur_y b).
    + apply IH. destruct current; discriminate.
    + destruct (IH (lines ++ [_merge_boxes_into_words current median_h])
                   [b] (Box.mid_y b)) as [H1 H2]; [discriminate|].
      split; [exact H1|]. rewrite H2. cbn [map]. now rewrite <- app_assoc.
Qed.

Lemma group_boxes_to_lines_sweep
      (items : list detection) (boxes : list Box.t) (median_h : number)
      (b0 : Box.t) (rest : list Box.t) :
  make_boxes items = Ok boxes ->
  sort_by key_le boxes = b0 :: rest ->
  median (map Box.height (sort_by key_le boxes)) = Ok median_h ->
  _group_boxes_to_lines items
  = Ok (map (fun g => _merge_boxes_into_words g median_h)
            (sweep (line_tol median_h) [b0] (Box.mid_y b0) rest)).
Proof.
  intros Hb Es Hm. unfold _group_boxes_to_lines. rewrite Hb. cbn [rbind].
  rewrite Es in *. rewrite Hm. cbn [rbind].
  destruct (group_loop_sweep median_h (line_tol median_h) rest [] [b0]
              (Box.mid_y b0)) as [H1 H2]; [discriminate|].
  destruct (group_loop _ _ _ _ _ _) as [lines' current'].
  cbn [fst snd] in *. destruct current'; [congruence|]. now rewrite H2.
Qed.

(** ** Averages *)

Section Averages.
Local Open Scope Q_scope.

Lemma sum_y_snoc (g : list Box.t) (b : Box.t) :
  sum_y (g ++ [b]) == sum_y g + Box.mid_y b.
Proof.
  unfold sum_y. induction g as [|a g IH]; simpl.
  - ring.
  - rewrite IH. ring.
Qed.

Lemma count_pos (g : list Box.t) :
  g <> [] -> 1 <= inject_Z (Z.of_nat (length g)).
Proof.
  intro H. change 1 with (inject_Z 1). rewrite <- Zle_Qle.
  destruct g; [congruence | simpl; lia].
Qed.

Lemma count_snoc (g : list Box.t) (b : Box.t) :
  inject_Z (Z.of_nat (length (g ++ [b])))
  == inject_Z (Z.of_nat (length g)) + 1.
Proof.
  rewrite length_app. cbn [length]. rewrite Nat2Z.inj_add, inject_Z_plus.
  reflexivity.
Qed.

Lemma mean_y_single (b : Box.t) : mean_y [b] == Box.mid_y b.
Proof. unfold mean_y, sum_y. simpl. field. Qed.

Lemma mean_y_snoc (g : list Box.t) (b : Box.t) :
  g <> [] ->
  mean_y (g ++ [b])
  == (mean_y g * inject_Z (Z.of_nat (length g)) + Box.mid_y b)
     / (inject_Z (Z.of_nat (length g)) + 1).
Proof.
  intro Hne. pose proof (count_pos g Hne) as Hn.
  unfold mean_y. rewrite sum_y_snoc, count_snoc. field. split; lra.
Qed.

(** A quantity within [e] of zero stays so when scaled down. *)
Lemma scaled_within (x e r : Q) :
  - e <= x -> x <= e -> 0 <= r -> r <= 1 -> - e <= x * r /\ x * r <= e.
Proof.
  intros H1 H2 H3 H4.
  assert (He : 0 <= e) by lra.
  destruct (Qlt_le_dec x 0) as [Hx|Hx].
  - assert (x * r <= 0).
    { setoid_replace (x * r) with (- ((- x) * r)) by ring.
      assert (0 <= (- x) * r) by (apply Qmult_le_0_compat; lra). lra. }
    assert (x <= x * r).
    { setoid_replace (x * r) with (x + (- x) * (1 - r)) by ring.
      assert (0 <= (- x) * (1 - r)) by (apply Qmult_le_0_compat; lra). lra. }
    split; lra.
  - assert (0 <= x * r) by (apply Qmult_le_0_compat; lra).
    assert (x * r <= x).
    { setoid_replace (x * r) with (x - x * (1 - r)) by ring.
      assert (0 <= x * (1 - r)) by (apply Qmult_le_0_compat; lra). lra. }
    split; lra.
Qed.

(** One step of the running average, with the three roundings it makes:
    the result stays within twice a rounding error more of the exact
    average. *)
Lemma average_step (cur m y n0 d1 d2 d3 e eta : Q) :
  1 <= n0 ->
  Qabs (cur - m) <= e ->
  Qabs d1 <= eta -> Qabs d2 <= eta -> Qabs d3 <= eta ->
  Qabs ((((cur * n0 + d1) + y + d2) / (n0 + 1) + d3)
        - (m * n0 + y) / (n0 + 1))
  <= e + 2 * eta.
Proof.
  intros Hn He H1 H2 H3.
  apply Qabs_Qle_condition in He, H1, H2, H3.
  set (r := / (n0 + 1)).
  assert (Hr0 : 0 < r) by (apply Qinv_lt_0_compat; lra).
  assert (Hr : (n0 + 1) * r == 1) by (unfold r; field; lra).
  assert (Hr1 : r <= 1 # 2).
  { assert (2 * r <= (n0 + 1) * r)
      by (apply Qmult_le_compat_r; lra). lra. }
  assert (E : ((cur * n0 + d1) + y + d2) / (n0 + 1) + d3
              - (m * n0 + y) / (n0 + 1)
              == d3 + ((d1 + d2) * (1 # 2)) * (2 * r) + (cur - m) * (1 - r)).
  { unfold Qdiv. fold r.
    setoid_replace ((cur - m) * (1 - r))
      with ((cur - m) * ((n0 + 1) * r - r)) by (rewrite Hr; reflexivity).
    ring. }
  rewrite E. apply Qabs_Qle_condition.
  assert (A : - eta <= (d1 + d2) * (1 # 2) * (2 * r)
              /\ (d1 + d2) * (1 # 2) * (2 * r) <= eta)
    by (apply scaled_within; lra).
  assert (B : - e <= (cur - m) * (1 - r) /\ (cur - m) * (1 - r) <= e)
    by (apply scaled_within; lra).
  split; lra.
Qed.

End Averages.

#[local] Instance round64_proper : Proper (Qeq ==> Qeq) round64.
Proof. exact round64_comp. Qed.

Lemma pow2_33 : (pow2 33 == 8589934592)%Q.
Proof. reflexivity. Qed.

Lemma pow2_m21 : (pow2 (33 - 54) == 1 # 2097152)%Q.
Proof. reflexivity. Qed.

(** The error of one operation on numbers below 2 ** 32. *)
Lemma small_error (x : Q) :
  (- 4294967296 <= x)%Q -> (x <= 4294967296)%Q ->
  (Qabs (round64 x - x) <= 1 # 2097152)%Q.
Proof.
  intros H1 H2. rewrite <- pow2_m21. apply round64_error.
  - rewrite pow2_33. apply Qabs_case; intro; lra.
  - unfold emin. lia.
Qed.

(** A multiple of one half of a centre, as a rational. *)
Lemma centre_multiple (b : Box.t) (Y n : Z) :
  (Box.mid_y b == inject_Z Y / 2)%Q ->
  (Box.mid_y b * inject_Z n == inject_Z (Y * n) / 2)%Q.
Proof. intro E. rewrite E, inject_Z_mult. field. Qed.

Lemma half_range (z : Z) :
  Z.abs z < 2 ^ 33 ->
  (- 4294967296 < inject_Z z / 2 /\ inject_Z z / 2 < 4294967296)%Q.
Proof.
  intro H.
  assert (H1 : (inject_Z (- 8589934592) < inject_Z z)%Q)
    by (rewrite <- Zlt_Qlt; eval_pow; lia).
  assert (H2 : (inject_Z z < inject_Z 8589934592)%Q)
    by (rewrite <- Zlt_Qlt; eval_pow; lia).
  change (inject_Z (- 8589934592)) with (- 8589934592)%Q in H1.
  change (inject_Z 8589934592) with 8589934592%Q in H2.
  no_div. split; lra.
Qed.

Section Step.
Local Open Scope Q_scope.

Variables (current : list Box.t) (cur : Q) (b : Box.t).
Hypothesis Hnear : near_average current cur.
Hypothesis Hcentred : Forall centred current.
Hypothesis Hb : centred b.
Hypothesis Hbelow : forall z, In z current -> above_or_level z b.
Hypothesis Hlen : (length current < 4096)%nat.

Let n0 : Z := Z.of_nat (length current).
Let N0 : Q := inject_Z n0.

Lemma step_count : (1 <= n0 < 4096)%Z.
Proof.
  unfold n0. destruct Hnear as (Hne & _).
  destruct current; [congruence | simpl in *; lia].
Qed.

Lemma step_N0 : 1 <= N0 /\ N0 < 4096.
Proof.
  pose proof step_count as H. unfold N0.
  change 1 with (inject_Z 1). change 4096 with (inject_Z 4096).
  rewrite <- Zle_Qle, <- Zlt_Qlt. exact H.
Qed.

Lemma step_len : len (current ++ [b]) = (n0 + 1)%Z.
Proof. unfold len, n0. rewrite length_app. simpl. lia. Qed.

Lemma step_f1 : float_of_int (len (current ++ [b]) - 1) == N0.
Proof.
  rewrite step_len. replace (n0 + 1 - 1)%Z with n0 by lia.
  apply float_of_int_exact. pose proof step_count. eval_pow. lia.
Qed.

Lemma step_f : float_of_int (len (current ++ [b])) == N0 + 1.
Proof.
  rewrite step_len. unfold N0. change 1 with (inject_Z 1).
  rewrite <- inject_Z_plus.
  apply float_of_int_exact. pose proof step_count. eval_pow. lia.
Qed.

(** A centre times a count up to 4096 is exact, and below 2 ** 32. *)
Lemma centre_times (c : Box.t) (n : Z) :
  centred c -> (0 <= n <= 4096)%Z ->
  round64 (Box.mid_y c * inject_Z n) == Box.mid_y c * inject_Z n
  /\ - 4294967296 < Box.mid_y c * inject_Z n
  /\ Box.mid_y c * inject_Z n < 4294967296.
Proof.
  intros (Y & EY & HY) Hn.
  assert (Hbound : (Z.abs (Y * n) < 2 ^ 33)%Z).
  { rewrite Z.abs_mul. eval_pow. nia. }
  rewrite (centre_multiple c Y n EY). split.
  - apply half_exact. eval_pow. lia.
  - now apply half_range.
Qed.

Lemma centre_exact (c : Box.t) :
  centred c ->
  round64 (Box.mid_y c) == Box.mid_y c
  /\ - 4294967296 < Box.mid_y c /\ Box.mid_y c < 4294967296.
Proof.
  intro Hc. destruct (centre_times c 1 Hc ltac:(lia)) as (E & H1 & H2).
  assert (E1 : Box.mid_y c * inject_Z 1 == Box.mid_y c)
    by (change (inject_Z 1) with 1; ring).
  rewrite E1 in E, H1, H2. auto.
Qed.

Lemma update_avg_near :
  near_average (current ++ [b]) (update_avg cur (current ++ [b]) b).
Proof.
  destruct Hnear as (Hne & (a & Ha & Hlo) & (z & Hz & Hhi) & Herr).
  assert (Hca : centred a) by (rewrite Forall_forall in Hcentred; auto).
  pose proof (Hbelow z Hz) as Hzb. unfold above_or_level in Hzb.
  assert (Hab : Box.mid_y a <= Box.mid_y b) by lra.
  destruct step_N0 as [HN1 HN2]. pose proof step_count as Hn0.
  (* the three operations *)
  set (y := Box.mid_y b) in *. set (ya := Box.mid_y a) in *.
  set (x1 := cur * N0).
  set (a1 := round64 x1).
  set (x2 := a1 + y).
  set (a2 := round64 x2).
  set (x3 := a2 / (N0 + 1)).
  set (a3 := round64 x3).
  assert (Ec : update_avg cur (current ++ [b]) b == a3).
  { unfold update_avg, fdiv, fadd, fmul. rewrite step_f1, step_f.
    reflexivity. }
  destruct (centre_times a n0 Hca ltac:(lia)) as (Ea0 & La0 & Ua0).
  destruct (centre_times b n0 Hb ltac:(lia)) as (Eb0 & Lb0 & Ub0).
  destruct (centre_times a (n0 + 1) Hca ltac:(lia)) as (Ea1 & La1 & Ua1).
  destruct (centre_times b (n0 + 1) Hb ltac:(lia)) as (Eb1 & Lb1 & Ub1).
  destruct (centre_exact a Hca) as (Ea & La & Ua).
  destruct (centre_exact b Hb) as (Eb & Lb & Ub).
  fold N0 ya y in Ea0, La0, Ua0, Eb0, Lb0, Ub0.
  rewrite inject_Z_plus in Ea1, La1, Ua1, Eb1, Lb1, Ub1.
  change (inject_Z 1) with 1 in Ea1, La1, Ua1, Eb1, Lb1, Ub1.
  fold N0 ya y in Ea1, La1, Ua1, Eb1, Lb1, Ub1, Ea, La, Ua, Eb, Lb, Ub.
  (* first operation *)
  assert (B1 : ya * N0 <= x1 /\ x1 <= y * N0).
  { unfold x1. split; apply Qmult_le_compat_r; lra. }
  assert (C1 : ya * N0 <= a1 /\ a1 <= y * N0).
  { unfold a1. split.
    - rewrite <- Ea0. apply round64_mono. apply B1.
    - rewrite <- Eb0. apply round64_mono. apply B1. }
  (* second operation *)
  assert (B2 : ya * (N0 + 1) <= x2 /\ x2 <= y * (N0 + 1)).
  { unfold x2. split.
    - setoid_replace (ya * (N0 + 1)) with (ya * N0 + ya) by ring. lra.
    - setoid_replace (y * (N0 + 1)) with (y * N0 + y) by ring. lra. }
  assert (C2 : ya * (N0 + 1) <= a2 /\ a2 <= y * (N0 + 1)).
  { unfold a2. split.
    - rewrite <- Ea1. apply round64_mono. apply B2.
    - rewrite <- Eb1. apply round64_mono. apply B2. }
  (* third operation *)
  assert (B3 : ya <= x3 /\ x3 <= y).
  { unfold x3. split.
    - apply Qle_shift_div_l; [lra | apply C2].
    - apply Qle_shift_div_r; [lra | apply C2]. }
  assert (C3 : ya <= a3 /\ a3 <= y).
  { unfold a3. split.
    - rewrite <- Ea. apply round64_mono. apply B3.
    - rewrite <- Eb. apply round64_mono. apply B3. }
  (* the errors *)
  assert (D1 : Qabs (a1 - x1) <= 1 # 2097152)
    by (apply small_error; lra).
  assert (D2 : Qabs (a2 - x2) <= 1 # 2097152)
    by (apply small_error; lra).
  assert (D3 : Qabs (a3 - x3) <= 1 # 2097152)
    by (apply small_error; lra).
  split; [destruct current; discriminate|].
  split; [exists a; split; [apply in_or_app; now left
                           | rewrite Ec; apply C3]|].
  split; [exists b; split; [apply in_or_app; right; now left
                           | rewrite Ec; apply C3]|].
  rewrite Ec, count_snoc, (mean_y_snoc current b Hne). fold n0 N0 y.
  assert (E : a3 - (mean_y current * N0 + y) / (N0 + 1)
              == (((cur * N0 + (a1 - x1)) + y + (a2 - x2)) / (N0 + 1)
                  + (a3 - x3))
                 - (mean_y current * N0 + y) / (N0 + 1)).
  { unfold x3, x2, x1. field. lra. }
  rewrite E.
  eapply Qle_trans.
  - apply (average_step cur (mean_y current) y N0 (a1 - x1) (a2 - x2)
             (a3 - x3) (N0 * (1 # 1048576)) (1 # 2097152));
      [lra | exact Herr | exact D1 | exact D2 | exact D3].
  - lra.
Qed.

End Step.

(** ** The tests of the sweep *)

Lemma centre_range (c : Box.t) :
  centred c -> (- 1048576 < Box.mid_y c /\ Box.mid_y c < 1048576)%Q.
Proof.
  intros (Y & EY & HY). rewrite EY.
  assert (H1 : (inject_Z (- 2097152) < inject_Z Y)%Q)
    by (rewrite <- Zlt_Qlt; eval_pow; lia).
  assert (H2 : (inject_Z Y < inject_Z 2097152)%Q)
    by (rewrite <- Zlt_Qlt; eval_pow; lia).
  change (inject_Z (- 2097152)) with (- 2097152)%Q in H1.
  change (inject_Z 2097152) with 2097152%Q in H2.
  no_div. split; lra.
Qed.

Lemma near_single (b : Box.t) : near_average [b] (Box.mid_y b).
Proof.
  split; [discriminate|].
  split; [exists b; split; [now left | apply Qle_refl]|].
  split; [exists b; split; [now left | apply Qle_refl]|].
  rewrite mean_y_single.
  setoid_replace (Box.mid_y b - Box.mid_y b)%Q with 0%Q by ring.
  cbn. unfold Qle. simpl. lia.
Qed.

Lemma joined_single (bound : Q) (b : Box.t) : joined_within bound [b].
Proof.
  intros pre b' post E Hne. destruct pre as [|p pre]; [congruence|].
  destruct pre; discriminate E.
Qed.

Lemma joined_snoc (bound : Q) (g : list Box.t) (b : Box.t) :
  joined_within bound g ->
  (distance b (mean_y g) < bound)%Q ->
  joined_within bound (g ++ [b]).
Proof.
  intros Hg Hb pre b' post E Hne.
  destruct (exists_last (l := b' :: post)) as (front & last & Efl);
    [discriminate|].
  rewrite Efl, app_assoc in E.
  apply app_inj_tail in E. destruct E as [Eg Eb].
  destruct front as [|f front]; cbn [app] in Efl; injection Efl as E1 E2.
  - rewrite app_nil_r in Eg. subst. exact Hb.
  - subst. apply (Hg pre f front); [reflexivity | exact Hne].
Qed.

Section Tests.
Local Open Scope Q_scope.

Variable median_h : number.
Variable k : Z.
Hypothesis Hvalue : value_of median_h == inject_Z k / 2.
Hypothesis Hk : (0 < k < 2 ^ 42)%Z.

Let tol : Q := line_tol median_h.
Let T : Q := tolerance (value_of median_h).

Variables (current : list Box.t) (cur : Q) (b : Box.t).
Hypothesis Hnear : near_average current cur.
Hypothesis Hcentred : Forall centred current.
Hypothesis Hb : centred b.
Hypothesis Hlen : (length current <= 4096)%nat.

(** The difference the test looks at, next to the distance from the
    exact average. *)
Lemma test_difference :
  Qabs (fsub (Box.mid_y b) cur - (Box.mid_y b - mean_y current))
  <= 1 # 128.
Proof.
  destruct Hnear as (Hne & (a & Ha & Hlo) & (z & Hz & Hhi) & Herr).
  rewrite Forall_forall in Hcentred.
  destruct (centre_range a (Hcentred a Ha)) as [La Ua].
  destruct (centre_range z (Hcentred z Hz)) as [Lz Uz].
  destruct (centre_range b Hb) as [Lb Ub].
  assert (Hn : inject_Z (Z.of_nat (length current)) <= 4096).
  { change 4096 with (inject_Z 4096). rewrite <- Zle_Qle. lia. }
  assert (D : Qabs (round64 (Box.mid_y b - cur) - (Box.mid_y b - cur))
              <= 1 # 2097152) by (apply small_error; lra).
  unfold fsub.
  apply Qabs_Qle_condition in D, Herr. apply Qabs_Qle_condition.
  split; lra.
Qed.

Lemma joins_near :
  same_line tol cur b = true ->
  distance b (mean_y current) < T + (1 # 8).
Proof.
  intro H. unfold same_line in H. apply Qleb_le in H.
  pose proof test_difference as D.
  destruct (line_tol_bracket median_h k Hvalue Hk) as [_ Hu].
  fold tol T in Hu. unfold distance.
  apply Qabs_Qle_condition in H, D.
  apply Qabs_case; intro; lra.
Qed.

Lemma parts_far :
  same_line tol cur b = false ->
  T - (1 # 8) < distance b (mean_y current).
Proof.
  intro H. unfold same_line in H. apply Qleb_false in H.
  pose proof test_difference as D.
  destruct (line_tol_bracket median_h k Hvalue Hk) as [Hl _].
  fold tol T in Hl. unfold distance.
  apply Qabs_Qle_condition in D.
  revert H. apply Qabs_case; intros Hs H; apply Qabs_case; intro; lra.
Qed.

(** A detection further below every member of the group than the
    tolerance of the specification does not join it. *)
Lemma parts_other_row :
  (forall z, In z current -> T < Box.mid_y b - Box.mid_y z) ->
  same_line tol cur b = false.
Proof.
  intro Hsep.
  destruct Hnear as (Hne & _ & (z & Hz & Hhi) & _).
  rewrite Forall_forall in Hcentred.
  destruct (Hcentred z Hz) as (Z' & EZ & HZ).
  destruct Hb as (B & EB & HB).
  pose proof (Hsep z Hz) as Hd.
  assert (Ed : Box.mid_y b - Box.mid_y z == inject_Z (B - Z') / 2).
  { rewrite EB, EZ. unfold Z.sub. rewrite inject_Z_plus, inject_Z_opp.
    field. }
  assert (Hex : round64 (Box.mid_y b - Box.mid_y z)
                == Box.mid_y b - Box.mid_y z).
  { rewrite Ed. apply half_exact. eval_pow. lia. }
  assert (Hsharp : tol < Box.mid_y b - Box.mid_y z).
  { rewrite Ed. apply (line_tol_sharp median_h k Hvalue Hk).
    rewrite <- Ed. exact Hd. }
  assert (Hmono : round64 (Box.mid_y b - Box.mid_y z)
                  <= round64 (Box.mid_y b - cur))
    by (apply round64_mono; lra).
  unfold same_line, fsub. apply Qleb_false.
  pose proof (Qle_Qabs (round64 (Box.mid_y b - cur))). lra.
Qed.

End Tests.

(** ** The groups of the sweep *)

Section Groups.

Variable median_h : number.
Variable k : Z.
Hypothesis Hvalue : (value_of median_h == inject_Z k / 2)%Q.
Hypothesis Hk : 0 < k < 2 ^ 42.

Let tol : Q := line_tol median_h.
Let T : Q := tolerance (value_of median_h).

Lemma sweep_groups (rest : list Box.t) :
  forall current cur,
    near_average current cur ->
    Forall centred (current ++ rest) ->
    StronglySorted above_or_level (current ++ rest) ->
    (length (current ++ rest) <= 4096)%nat ->
    joined_within (T + (1 # 8)) current ->
    concat (sweep tol current cur rest) = current ++ rest
    /\ Forall (fun g => g <> []) (sweep tol current cur rest)
    /\ Forall (joined_within (T + (1 # 8))) (sweep tol current cur rest)
    /\ Sorted (parted_beyond (T - (1 # 8))) (sweep tol current cur rest)
    /\ exists ext later, sweep tol current cur rest = (current ++ ext) :: later.
Proof.
  induction rest as [|b rest IH]; intros current cur Hn Hc Hs Hl Hj;
    cbn [sweep].
  - destruct Hn as (Hne & _). cbn [concat].
    split; [rewrite ?app_nil_r; reflexivity|].
    split; [now constructor|].
    split; [now constructor|].
    split; [repeat constructor|].
    exists [], []. now rewrite app_nil_r.
  - assert (Hcc : Forall centred current)
      by (apply Forall_app in Hc; apply Hc).
    assert (Hcb : centred b).
    { apply Forall_app in Hc. destruct Hc as [_ Hc]. now inversion Hc. }
    assert (Hbelow : forall z, In z current -> above_or_level z b).
    { intros z Hz. apply (sorted_app_rel _ _ _ Hs z b Hz). now left. }
    assert (Hlen : (length current < 4096)%nat)
      by (rewrite length_app in Hl; simpl in Hl; lia).
    destruct (same_line tol cur b) eqn:Et.
    + destruct (IH (current ++ [b]) (update_avg cur (current ++ [b]) b))
        as (I1 & I2 & I3 & I4 & ext & later & I5).
      * now apply update_avg_near.
      * now rewrite <- app_assoc.
      * now rewrite <- app_assoc.
      * now rewrite <- app_assoc.
      * apply joined_snoc; [exact Hj|].
        apply (joins_near median_h k Hvalue Hk current cur b);
          [assumption | assumption | assumption | lia | exact Et].
      * rewrite <- app_assoc in I1. repeat split; try assumption.
        exists ([b] ++ ext), later. now rewrite app_assoc.
    + destruct (IH [b] (Box.mid_y b))
        as (I1 & I2 & I3 & I4 & ext & later & I5).
      * apply near_single.
      * apply Forall_app in Hc. apply Hc.
      * apply (sorted_app_r _ _ _ Hs).
      * rewrite length_app in Hl. simpl in *. lia.
      * apply joined_single.
      * cbn [concat]. rewrite I1. repeat split.
        -- constructor; [apply Hn | exact I2].
        -- constructor; assumption.
        -- constructor; [exact I4|]. rewrite I5. constructor.
           cbn [app parted_beyond].
           apply (parts_far median_h k Hvalue Hk current cur b);
             [assumption | assumption | assumption | lia | exact Et].
        -- exists [], (sweep tol [b] (Box.mid_y b) rest).
           now rewrite app_nil_r.
Qed.

Lemma sweep_rows (in_row : Box.t -> bool) (rest : list Box.t) :
  forall current cur,
    near_average current cur ->
    Forall centred (current ++ rest) ->
    StronglySorted above_or_level (current ++ rest) ->
    (length (current ++ rest) <= 4096)%nat ->
    single_row in_row current ->
    (forall x y, In x (current ++ rest) -> In y (current ++ rest) ->
                 in_row x <> in_row y ->
                 (T < distance x (Box.mid_y y))%Q) ->
    Forall (single_row in_row) (sweep tol current cur rest).
Proof.
  induction rest as [|b rest IH]; intros current cur Hn Hc Hs Hl Hr Hsep;
    cbn [sweep].
  - now constructor.
  - assert (Hcc : Forall centred current)
      by (apply Forall_app in Hc; apply Hc).
    assert (Hcb : centred b).
    { apply Forall_app in Hc. destruct Hc as [_ Hc]. now inversion Hc. }
    assert (Hbelow : forall z, In z current -> above_or_level z b).
    { intros z Hz. apply (sorted_app_rel _ _ _ Hs z b Hz). now left. }
    assert (Hlen : (length current < 4096)%nat)
      by (rewrite length_app in Hl; simpl in Hl; lia).
    assert (Hsep' : forall x y, In x (b :: rest) -> In y (b :: rest) ->
                                in_row x <> in_row y ->
                                (T < distance x (Box.mid_y y))%Q).
    { intros x y Hx Hy. apply Hsep; apply in_or_app; now right. }
    assert (Hnew : Forall (single_row in_row)
                          (sweep tol [b] (Box.mid_y b) rest)).
    { apply IH.
      - apply near_single.
      - apply Forall_app in Hc. apply Hc.
      - apply (sorted_app_r _ _ _ Hs).
      - rewrite length_app in Hl. simpl in *. lia.
      - intros x y [<-|[]] [<-|[]]. reflexivity.
      - exact Hsep'. }
    destruct (same_line tol cur b) eqn:Et; [|constructor; assumption].
    apply IH.
    + now apply update_avg_near.
    + now rewrite <- app_assoc.
    + now rewrite <- app_assoc.
    + now rewrite <- app_assoc.
    + destruct Hn as (Hne & Hrest).
      destruct current as [|c0 current']; [congruence|].
      destruct (bool_dec (in_row b) (in_row c0)) as [Eq|Neq].
      * intros x y Hx Hy. apply in_app_or in Hx, Hy.
        assert (Hall : forall w, In w ((c0 :: current') ++ [b]) ->
                                 in_row w = in_row c0).
        { intros w Hw. apply in_app_or in Hw.
          destruct Hw as [Hw|[<-|[]]]; [|exact Eq].
          apply Hr; [exact Hw | now left]. }
        rewrite (Hall x), (Hall y); [reflexivity | |];
          apply in_or_app; assumption.
      * exfalso.
        assert (Hfalse : same_line tol cur b = false).
        { apply (parts_other_row median_h k Hvalue Hk (c0 :: current') cur b);
            [split; [exact Hne | exact Hrest] | assumption | assumption
             | lia |].
          intros z Hz.
          assert (Hzrow : in_row z <> in_row b).
          { rewrite (Hr z c0 Hz (or_introl eq_refl)). congruence. }
          pose proof (Hsep z b) as Hd.
          specialize (Hd ltac:(apply in_or_app; now left)
                         ltac:(apply in_or_app; right; now left) Hzrow).
          pose proof (Hbelow z Hz) as Hzb. unfold above_or_level in Hzb.
          unfold distance in Hd.
          rewrite Qabs_neg in Hd by (clear - Hzb; lra).
          unfold T in Hd. clear - Hd. lra. }
        congruence.
    + intros x y Hx Hy. apply Hsep; rewrite <- app_assoc in *; assumption.
Qed.

End Groups.

(** ** The reconstructor as a whole *)

Lemma median_of_perm (d1 d2 : list Z) (m : Q) :
  Permutation d1 d2 -> median_of d2 m -> median_of d1 m.
Proof.
  intros Hp (sorted & Hs & H). exists sorted.
  split; [now transitivity d2 | exact H].
Qed.

(** C9. The tolerance of line grouping is max(8, median height x 0.6), to
    within a sixteenth of a pixel, and it is applied against the running
    average of the current group: a detection joins the group only within
    the tolerance, to an eighth of a pixel, of the average of the
    detections before it, and starts a new line only beyond it.  Hence,
    when the detections form two rows whose vertical centres differ, from
    one row to the other, by more than the tolerance, no line mixes the
    two rows and at least two lines come out.  The domain is that of at
    most 4096 detections of ordinates below 2 ** 20. *)
Theorem C9_separate_rows_separate_lines
        (items : list detection) (boxes : list Box.t) (median_h : number) :
  make_boxes items = Ok boxes ->
  median (map Box.height (sort_by key_le boxes)) = Ok median_h ->
  within_bounds items ->
  let m := value_of median_h in
  Forall2 describes items boxes
  /\ median_of (map Box.height boxes) m
  /\ (tolerance m - (1 # 16) < line_tol median_h
      /\ line_tol median_h < tolerance m + (1 # 16))%Q
  /\ exists groups,
      _group_boxes_to_lines items
      = Ok (map (fun g => _merge_boxes_into_words g median_h) groups)
      /\ Permutation boxes (concat groups)
      /\ StronglySorted above_or_level (concat groups)
      /\ Forall (fun g => g <> []) groups
      /\ Forall (joined_within (tolerance m + (1 # 8))) groups
      /\ Sorted (parted_beyond (tolerance m - (1 # 8))) groups
      /\ forall in_row,
          (forall x y, In x boxes -> In y boxes -> in_row x <> in_row y ->
                       (tolerance m < distance x (Box.mid_y y))%Q) ->
          Forall (single_row in_row) groups
          /\ ((exists a, In a boxes /\ in_row a = true) ->
              (exists b, In b boxes /\ in_row b = false) ->
              (2 <= length groups)%nat).
Proof.
  intros Hb Hm [Hcount Hord]. cbv zeta.
  destruct (make_boxes_describes items boxes Hb Hord) as (Hd & Hc & Hh).
  assert (Hlen : length boxes = length items)
    by (symmetry; apply (Forall2_length Hd)).
  assert (Hdata : forall x, In x (map Box.height (sort_by key_le boxes)) ->
                            1 <= x < 2 ^ 21).
  { intros x Hx. apply in_map_iff in Hx. destruct Hx as (b & <- & Hin).
    apply (proj1 (sort_by_in key_le boxes b)) in Hin.
    rewrite Forall_forall in Hh. exact (Hh b Hin). }
  destruct (median_spec _ _ Hm Hdata) as (Hmed & k & Hv & Hk).
  split; [exact Hd|]. split.
  { apply (median_of_perm _ (map Box.height (sort_by key_le boxes)));
      [apply Permutation_map, sort_by_perm | exact Hmed]. }
  split; [apply (line_tol_bracket median_h k Hv Hk)|].
  destruct (sort_by key_le boxes) as [|b0 rest] eqn:Es; [discriminate Hm|].
  assert (Hperm : Permutation boxes (b0 :: rest))
    by (rewrite <- Es; apply sort_by_perm).
  assert (Hcs : Forall centred ([b0] ++ rest)).
  { cbn [app]. rewrite Forall_forall in *. intros x Hx. apply Hc.
    apply (Permutation_in _ (Permutation_sym Hperm) Hx). }
  assert (Hss : StronglySorted above_or_level ([b0] ++ rest))
    by (cbn [app]; rewrite <- Es; apply sorted_by_centre).
  assert (Hls : (length ([b0] ++ rest) <= 4096)%nat).
  { cbn [app]. rewrite <- (Permutation_length Hperm). lia. }
  exists (sweep (line_tol median_h) [b0] (Box.mid_y b0) rest).
  destruct (sweep_groups median_h k Hv Hk rest [b0] (Box.mid_y b0)
              (near_single b0) Hcs Hss Hls (joined_single _ b0))
    as (G1 & G2 & G3 & G4 & _).
  cbn [app] in G1.
  split.
  { apply (group_boxes_to_lines_sweep items boxes median_h b0 rest Hb Es).
    now rewrite Es. }
  split; [now rewrite G1|].
  split; [rewrite G1; exact Hss|].
  split; [exact G2|]. split; [exact G3|]. split; [exact G4|].
  intros in_row Hsep.
  assert (Hrows : Forall (single_row in_row)
                         (sweep (line_tol median_h) [b0] (Box.mid_y b0) rest)).
  { apply (sweep_rows median_h k Hv Hk in_row rest [b0] (Box.mid_y b0)
             (near_single b0) Hcs Hss Hls).
    - intros x y [<-|[]] [<-|[]]. reflexivity.
    - intros x y Hx Hy. apply Hsep;
        apply (Permutation_in _ (Permutation_sym Hperm)); assumption. }
  split; [exact Hrows|].
  intros (a & Ha & Ra) (b & Hb' & Rb).
  apply (two_rows_two_groups in_row _ Hrows).
  - exists a. split; [|exact Ra]. rewrite G1.
    apply (Permutation_in _ Hperm Ha).
  - exists b. split; [|exact Rb]. rewrite G1.
    apply (Permutation_in _ Hperm Hb').
Qed.

Lemma C9_separate_rows_witness :
  exists groups,
    _group_boxes_to_lines demo_items
    = Ok (map (fun g => _merge_boxes_into_words g (PyFloat (int_truediv 40 2)))
              groups)
    /\ Forall (single_row demo_in_first_row) groups
    /\ (2 <= length groups)%nat.
Proof.
  destruct (C9_separate_rows_separate_lines
              demo_items demo_boxes (PyFloat (int_truediv 40 2)))
    as (_ & _ & _ & groups & Hlines & _ & _ & _ & _ & _ & Hrows).
  - vm_compute. reflexivity.
  - vm_compute. reflexivity.
  - split; [simpl; lia|].
    intros d y [<-|[<-|[<-|[<-|[]]]]] Hy; vm_compute in Hy;
      repeat (destruct Hy as [<-|Hy]; [vm_compute; reflexivity|]);
      destruct Hy.
  - destruct (Hrows demo_in_first_row) as [H1 H2].
    + intros x y [<-|[<-|[<-|[<-|[]]]]] [<-|[<-|[<-|[<-|[]]]]] Hrow;
        first [ vm_compute; reflexivity
              | exfalso; apply Hrow; vm_compute; reflexivity ].
    + exists groups. split; [exact Hlines|]. split; [exact H1|].
      apply H2.
      * eexists. split; [left; reflexivity | vm_compute; reflexivity].
      * eexists. split; [right; left; reflexivity | vm_compute; reflexivity].
Defined.

(* ================================================================== *)
(** * Properties of the OCR invoker and of the orchestrator            *)
(* ================================================================== *)

(** ** What a computation adds to the log *)

Section EmitsRules.

Variable P : event -> Prop.

Lemma emits_ret {A} (Q : A -> Prop) (a : A) : Q a -> emits P Q (ret a).
Proof.
  intros Ha st. unfold ret. simpl. split.
  - exists []. now rewrite app_nil_r.
  - intros a' E. now inversion E; subst.
Qed.

Lemma emits_raise {A} (Q : A -> Prop) (e : exn) : emits P Q (raise e).
Proof.
  intro st. unfold raise. simpl. split.
  - exists []. now rewrite app_nil_r.
  - discriminate.
Qed.

Lemma emits_lift {A} (Q : A -> Prop) (r : result A) :
  (forall a, r = Ok a -> Q a) -> emits P Q (lift r).
Proof.
  intros Hr st. unfold lift. simpl. split.
  - exists []. now rewrite app_nil_r.
  - exact Hr.
Qed.

Lemma emits_emit (e : event) : P e -> emits P anything (emit e).
Proof.
  intros He st. unfold emit. simpl. split.
  - exists [e]. split; [reflexivity | now constructor].
  - now intros.
Qed.

Lemma emits_bind {A B} (Q : A -> Prop) (R : B -> Prop) (m : M A) (k : A -> M B) :
  emits P Q m -> (forall a, Q a -> emits P R (k a)) -> emits P R (bind m k).
Proof.
  intros Hm Hk st. unfold bind.
  destruct (Hm st) as [(new1 & E1 & F1) Hq].
  destruct (m st) as [[a|e] st1]; simpl in *.
  - destruct (Hk a (Hq a eq_refl) st1) as [(new2 & E2 & F2) Hr].
    split; [|exact Hr].
    exists (new1 ++ new2). rewrite E2, E1, app_assoc.
    split; [reflexivity | now apply Forall_app].
  - split; [now exists new1 | discriminate].
Qed.

Lemma emits_catch {A} (Q : A -> Prop) (m : M A) (h : exn -> M A) :
  emits P Q m -> (forall e, emits P Q (h e)) -> emits P Q (catch m h).
Proof.
  intros Hm Hh st. unfold catch.
  destruct (Hm st) as [(new1 & E1 & F1) Hq].
  destruct (m st) as [[a|e] st1]; simpl in *.
  - split; [now exists new1 | exact Hq].
  - destruct (Hh e st1) as [(new2 & E2 & F2) Hr].
    split; [|exact Hr].
    exists (new1 ++ new2). rewrite E2, E1, app_assoc.
    split; [reflexivity | now apply Forall_app].
Qed.

Lemma emits_weaken {A} (Q Q' : A -> Prop) (m : M A) :
  (forall a, Q a -> Q' a) -> emits P Q m -> emits P Q' m.
Proof.
  intros Hq Hm st. destruct (Hm st) as [Hl Ha]. split; [exact Hl|].
  intros a E. apply Hq. now apply Ha.
Qed.

Lemma emits_if {A} (Q : A -> Prop) (b : bool) (m1 m2 : M A) :
  emits P Q m1 -> emits P Q m2 -> emits P Q (if b then m1 else m2).
Proof. now destruct b. Qed.

End EmitsRules.

(** ** Every rasterisation and every engine call is at max(300, dpi) *)

Section DpiFacts.

Variable isalpha : char -> bool.
Variable W : world.
Variable d : Z.

Lemma get_ocr_model_emits : emits (at_dpi d) anything (_get_ocr_model W).
Proof.
  intro st. unfold _get_ocr_model.
  destruct (ocr_model_loaded st); simpl.
  - split; [|now intros]. exists []. now rewrite app_nil_r.
  - destruct (engine_init W (load_attempts st)); simpl;
      (split; [|now intros]); eexists; (split; [reflexivity|]);
      repeat constructor.
Qed.

Lemma preprocess_emits (img : image) (strong : bool) :
  raster_dpi img = d ->
  emits (at_dpi d) (from_dpi d) (preprocess_pil_image W img strong).
Proof.
  intro Hd. unfold preprocess_pil_image.
  eapply emits_bind; [apply emits_emit; exact Hd|]. intros _ _.
  apply emits_if; [now apply emits_ret | apply emits_raise].
Qed.

Lemma run_ocr_emits (pil_img : image) (do_preprocess : bool) :
  raster_dpi pil_img = d ->
  emits (at_dpi d) anything (run_ocr W pil_img do_preprocess).
Proof.
  intro Hd. unfold run_ocr.
  apply emits_catch; [|intro; now apply emits_ret].
  eapply emits_bind; [apply get_ocr_model_emits|]. intros _ _.
  eapply emits_bind with (Q := (from_dpi d)).
  - apply emits_if.
    + apply emits_catch; [now apply preprocess_emits|].
      intro. now apply emits_ret.
    + now apply emits_ret.
  - intros img Himg. cbv zeta.
    eapply emits_bind.
    + apply emits_emit. simpl. destruct (_ || _); simpl; exact Himg.
    + intros _ _. eapply emits_bind with (Q := anything);
        [apply emits_lift; now intros|].
      intros r _. now apply emits_ret.
Qed.

Lemma ocr_page_emits (pil_img : image) (strong_mode : bool) :
  raster_dpi pil_img = d ->
  emits (at_dpi d) anything (ocr_page W pil_img strong_mode).
Proof.
  intro Hd. unfold ocr_page.
  assert (Hstrong :
    emits (at_dpi d) anything
      (bind (preprocess_pil_image W pil_img true)
            (fun pil_strong => run_ocr W pil_strong false))).
  { eapply emits_bind; [now apply preprocess_emits|].
    intros a Ha. now apply run_ocr_emits. }
  destruct strong_mode.
  - apply emits_catch; [exact Hstrong|]. intro. now apply run_ocr_emits.
  - eapply emits_bind; [now apply run_ocr_emits|]. intros page_text _.
    apply emits_if; [now apply emits_ret|].
    apply emits_catch; [exact Hstrong|]. intro. now apply emits_ret.
Qed.


End DpiFacts.

Section RunDpiFacts.

Variable isalpha : char -> bool.
Variable W : world.
Variable dpi : Z.










End RunDpiFacts.

(** The fallback begins by rasterising the page. *)
Lemma emit_first {A B} (P : event -> Prop) (ev : event) (X : M A) (K : A -> M B) :
  emits P anything (bind X K) ->
  forall st, exists rest,
    log (snd (bind (bind (emit ev) (fun _ => X)) K st)) = log st ++ ev :: rest.
Proof.
  intros H st. unfold bind at 1 2. unfold emit. cbn [fst snd].
  set (st1 := State _ _ _).
  destruct (H st1) as [(new & E & _) _]. unfold bind in E.
  destruct (X st1) as [[a|e] st2]; exists new; cbn [fst snd] in *;
    rewrite E; unfold st1; cbn [log]; now rewrite <- app_assoc.
Qed.

Lemma ocr_fallback_rasterizes (W : world) (i : nat) (p : page) (dpi : Z)
      (strong_mode : bool) (st : state) :
  exists rest,
    log (snd (ocr_fallback W i p dpi strong_mode st))
    = log st ++ EvPixmap i (Z.max 300 dpi) :: rest.
Proof.
  unfold ocr_fallback, rasterize. cbv zeta.
  apply (emit_first (at_dpi (Z.max 300 dpi))).
  eapply emits_bind with (Q := from_dpi (Z.max 300 dpi)).
  - apply emits_if; [now apply emits_ret | apply emits_raise].
  - intros pil_img Himg.
    eapply emits_bind; [apply ocr_page_emits; exact Himg|]. intros page_text _.
    apply emits_if; now apply emits_ret.
Qed.


(** ** One section per page *)

Section PageLoopFacts.

Variable isalpha : char -> bool.
Variable W : world.
Variable dpi : Z.
Variable force_ocr strong_mode : bool.

Lemma page_iteration_catches (i : nat) (doc_i : result page) (st : state) :
  page_iteration isalpha W i doc_i dpi force_ocr strong_mode st
  = match page_entry isalpha W i doc_i dpi force_ocr strong_mode st with
    | (Ok entry, st') => (Ok entry, st')
    | (Raise _, st') => (Ok (marker i), st')
    end.
Proof.
  unfold page_iteration, catch.
  destruct (page_entry _ _ _ _ _ _ _ _) as [[entry|e] st']; reflexivity.
Qed.



Lemma pages_loop_sections (pages : list (result page)) :
  forall i all_text st,
    pages_loop isalpha W i pages dpi force_ocr strong_mode all_text st
    = let '(sections, st') :=
        page_sections isalpha W i pages dpi force_ocr strong_mode st in
      (Ok (all_text ++ sections), st').
Proof.
  induction pages as [|doc_i pages IH]; intros i all_text st; simpl.
  - unfold ret. now rewrite app_nil_r.
  - unfold bind at 1. rewrite page_iteration_catches.
    destruct (page_entry _ _ _ _ _ _ _ _) as [[entry|e] st1];
      rewrite IH;
      destruct (page_sections _ _ _ _ _ _ _ _) as [rest st2];
      now rewrite <- app_assoc.
Qed.



End PageLoopFacts.




Example three_pages_three_markers :
  fst (extract_all_pages_text basic_isalpha reading_world three_page_pdf
                              200 10 false false initial_state)
  = Ok (marker 0 ++ clean_text ++ [NL; NL] ++ marker 1 ++ [NL; NL]
          ++ marker 2 ++ lit "scanned").
Proof. vm_compute. reflexivity. Qed.

(** ** Engine unavailability *)

Section EngineDown.

Variable W : world.

Lemma get_ocr_model_down (st : state) :
  engine_down W st ->
  _get_ocr_model W st
  = (Raise RuntimeError,
     State false (S (load_attempts st)) (log st ++ [EvLoadModel false])).
Proof.
  intros [Hl Hi]. unfold _get_ocr_model. now rewrite Hl, Hi.
Qed.

Lemma run_ocr_down (img : image) (do_preprocess : bool) (st : state) :
  engine_down W st ->
  run_ocr W img do_preprocess st
  = (Ok [], State false (S (load_attempts st)) (log st ++ [EvLoadModel false])).
Proof.
  intro H. unfold run_ocr, catch, bind at 1.
  now rewrite (get_ocr_model_down st H).
Qed.

Lemma engine_down_step (st st' : state) :
  ocr_model_loaded st' = false -> engine_down W st -> engine_down W st'.
Proof. intros Hl [_ Hi]. now split. Qed.

Lemma strong_retry_down (img : image) (st : state) (h : exn -> M str) :
  engine_down W st ->
  (forall e st1, engine_down W st1 ->
                 exists st2, h e st1 = (Ok [], st2) /\ engine_down W st2) ->
  exists st',
    catch (bind (preprocess_pil_image W img true)
                (fun pil_strong => run_ocr W pil_strong false)) h st
    = (Ok [], st') /\ engine_down W st'.
Proof.
  intros Hd Hh. unfold catch, bind at 1, preprocess_pil_image, bind at 1, emit.
  set (st1 := State _ _ _).
  assert (Hd1 : engine_down W st1) by (apply (engine_down_step st); [apply Hd | exact Hd]).
  destruct (preprocess_ok W img true).
  - unfold ret. rewrite (run_ocr_down _ _ st1 Hd1). eexists. split; [reflexivity|].
    now apply (engine_down_step st1).
  - unfold raise. apply Hh. exact Hd1.
Qed.

Lemma ocr_page_down (img : image) (strong_mode : bool) (st : state) :
  engine_down W st ->
  exists st', ocr_page W img strong_mode st = (Ok [], st') /\ engine_down W st'.
Proof.
  intro Hd. unfold ocr_page. destruct strong_mode.
  - apply strong_retry_down; [exact Hd|].
    intros e st1 Hd1. rewrite (run_ocr_down _ _ st1 Hd1).
    eexists. split; [reflexivity|]. now apply (engine_down_step st1).
  - unfold bind at 1. rewrite (run_ocr_down _ _ st Hd).
    change (nonempty (strip [])) with false. cbv iota.
    apply strong_retry_down.
    + now apply (engine_down_step st).
    + intros e st1 Hd1. unfold ret. eauto.
Qed.

Lemma ocr_fallback_down (i : nat) (p : page) (dpi : Z) (strong_mode : bool)
      (st : state) :
  engine_down W st ->
  exists st',
    catch (ocr_fallback W i p dpi strong_mode) (fun _ => ret (marker i)) st
    = (Ok (marker i), st').
Proof.
  intro Hd. unfold catch, ocr_fallback. cbv zeta.
  unfold bind at 1, rasterize, bind at 1, emit.
  set (st1 := State _ _ _).
  assert (Hd1 : engine_down W st1)
    by (apply (engine_down_step st); [apply Hd | exact Hd]).
  destruct (get_pixmap_ok p (Z.max 300 dpi)).
  - unfold ret at 1. unfold bind at 1.
    destruct (ocr_page_down (PagePixmap i (Z.max 300 dpi)) strong_mode st1 Hd1)
      as (st2 & -> & _).
    change (nonempty (strip [])) with false. cbv iota. unfold ret. eauto.
  - unfold raise, ret. eauto.
Qed.

Lemma ocr_only_loop_down (images : list image) :
  forall i all_text st,
    engine_down W st ->
    exists st', ocr_only_loop W i images all_text st = (Ok all_text, st').
Proof.
  induction images as [|img images IH]; intros i all_text st Hd;
    cbn [ocr_only_loop].
  - unfold ret. eauto.
  - unfold bind at 1, catch, bind at 1. rewrite (run_ocr_down img true st Hd).
    change (nonempty (strip [])) with false. cbv iota. unfold ret at 1.
    rewrite app_nil_r. apply IH. now apply (engine_down_step st).
Qed.

End EngineDown.

(** Rasterisation and conversion leave the engine handle as it is. *)
Lemma rasterize_keeps_handle (i : nat) (p : page) (d : Z) (st : state) :
  ocr_model_loaded (snd (rasterize i p d st)) = ocr_model_loaded st.
Proof.
  unfold rasterize, bind, emit. now destruct (get_pixmap_ok p d).
Qed.

Lemma fitz_images_keeps_handle (pages : list (result page)) :
  forall i d st,
    ocr_model_loaded (snd (fitz_images i pages d st)) = ocr_model_loaded st.
Proof.
  induction pages as [|doc_i pages IH]; intros i d st; cbn [fitz_images].
  - reflexivity.
  - unfold bind at 1, lift. destruct doc_i as [p|e]; [|reflexivity].
    unfold bind at 1. pose proof (rasterize_keeps_handle i p d st) as Hr.
    destruct (rasterize i p d st) as [[img|e] st1]; cbn [snd] in Hr;
      [|exact Hr].
    unfold bind at 1. pose proof (IH (S i) d st1) as Hi.
    destruct (fitz_images (S i) pages d st1) as [[imgs|e] st2];
      cbn [snd] in Hi; unfold ret; cbn [snd]; now rewrite Hi.
Qed.

Lemma pdf_to_images_keeps_handle (f : pdf) (d max_pages : Z) (st : state) :
  ocr_model_loaded (snd (pdf_to_images f d max_pages st)) = ocr_model_loaded st.
Proof.
  unfold pdf_to_images. cbv zeta. unfold bind at 1, emit.
  set (st1 := State _ _ _).
  destruct (convert_from_bytes f d (Z.min max_pages 20)); [reflexivity|].
  unfold catch, bind at 1, lift. destruct (fitz_open f) as [doc|e1]; [|reflexivity].
  pose proof (fitz_images_keeps_handle
                (firstn (Z.to_nat (Z.min (len doc) max_pages)) doc) 0 d st1) as H.
  destruct (fitz_images _ _ _ _) as [[imgs|e2] st2]; exact H.
Qed.

Lemma extract_returns_when_opened
      (isalpha : char -> bool) (W : world) (f : pdf) (doc : list (result page))
      (dpi max_pages : Z) (force_ocr strong_mode : bool) (st : state) :
  fitz_open f = Ok doc ->
  exists out st',
    extract_all_pages_text isalpha W f dpi max_pages force_ocr strong_mode st
    = (Ok out, st').
Proof.
  intro Hopen. unfold extract_all_pages_text. rewrite Hopen. cbv zeta.
  unfold bind. rewrite pages_loop_sections.
  destruct (page_sections _ _ _ _ _ _ _ _) as [secs st2]. unfold ret. eauto.
Qed.

(** C2, as the code has it. When the engine fails to initialise,
    [_get_ocr_model] raises to its caller [run_ocr]; [run_ocr] catches the
    failure and returns the empty string, and the handle stays unset, so
    the next request tries again.  When every attempt fails: an iteration
    of the page loop yields the marker with an empty body, unless the
    direct text of the page was accepted; where the primary reader opens
    the document the pipeline returns its output normally; where it
    cannot, on the all-pages-OCR path, no page leaves a section and the
    output is the empty string, unless the conversion to images raises
    or yields no image, which raises. *)
Theorem C2_engine_failure_yields_empty_pages (W : world) (st : state) :
  ocr_model_loaded st = false ->
  (engine_init W (load_attempts st) = false ->
   let st' :=
     State false (S (load_attempts st)) (log st ++ [EvLoadModel false]) in
   _get_ocr_model W st = (Raise RuntimeError, st')
   /\ forall img do_preprocess, run_ocr W img do_preprocess st = (Ok [], st'))
  /\ ((forall n, engine_init W n = false) ->
      (forall isalpha i doc_i dpi force_ocr strong_mode,
          exists entry st',
            page_iteration isalpha W i doc_i dpi force_ocr strong_mode st
            = (Ok entry, st')
            /\ (entry = marker i
                \/ exists p,
                    doc_i = Ok p /\ force_ocr = false
                    /\ accepts_direct isalpha (_direct_text_from_page p)
                       = Ok true
                    /\ entry = marker i ++ strip (_direct_text_from_page p)))
      /\ (forall isalpha f dpi max_pages force_ocr strong_mode,
             let run :=
               extract_all_pages_text isalpha W f dpi max_pages
                                      force_ocr strong_mode st in
             match fitz_open f with
             | Ok _ => exists out, fst run = Ok out
             | Raise _ =>
                 match fst (pdf_to_images f (Z.max 300 dpi) max_pages st) with
                 | Ok (_ :: _) => fst run = Ok []
                 | Ok [] => fst run = Raise ValueError
                 | Raise e => fst run = Raise e
                 end
             end)).
Proof.
  intro Hl. split.
  - intro Hi. cbv zeta.
    assert (Hg : _get_ocr_model W st
                 = (Raise RuntimeError,
                    State false (S (load_attempts st))
                          (log st ++ [EvLoadModel false])))
      by (unfold _get_ocr_model; now rewrite Hl, Hi).
    split; [exact Hg|]. intros img dp.
    unfold run_ocr, catch, bind at 1. now rewrite Hg.
  - intro Hall. assert (Hd : engine_down W st) by now split.
    split.
    + intros isalpha i doc_i dpi force_ocr strong_mode.
      unfold page_iteration, page_entry.
      destruct doc_i as [p|e].
      * destruct (ocr_fallback_down W i p dpi strong_mode st Hd) as [st' Hf].
        destruct force_ocr.
        -- exists (marker i), st'. split; [exact Hf | now left].
        -- unfold catch, bind at 1, lift at 1, bind at 1, lift at 1.
           destruct (accepts_direct isalpha (_direct_text_from_page p))
             as [[|]|e] eqn:Ea.
           ++ unfold ret. eexists _, _. split; [reflexivity|]. right.
              exists p. repeat split; assumption || reflexivity.
           ++ exists (marker i), st'. split; [exact Hf | now left].
           ++ unfold ret. eexists _, _. split; [reflexivity | now left].
      * unfold catch, bind at 1, lift, ret. eexists _, _.
        split; [reflexivity | now left].
    + intros isalpha f dpi max_pages force_ocr strong_mode. cbv zeta.
      destruct (fitz_open f) as [doc|e] eqn:Hopen.
      * destruct (extract_returns_when_opened isalpha W f doc dpi max_pages
                    force_ocr strong_mode st Hopen) as (out & st' & E).
        exists out. now rewrite E.
      * unfold extract_all_pages_text. rewrite Hopen.
        unfold _extract_all_pages_text_via_ocr_only.
        pose proof (pdf_to_images_keeps_handle f (Z.max 300 dpi) max_pages st)
          as Hk.
        destruct (pdf_to_images f (Z.max 300 dpi) max_pages st)
          as [[[|img images]|e'] st1] eqn:Ep; cbn [fst snd] in *;
          unfold bind at 1; rewrite Ep; try reflexivity.
        assert (Hd1 : engine_down W st1)
          by (apply (engine_down_step W st); [congruence | exact Hd]).
        unfold bind at 1.
        destruct (ocr_only_loop_down W (img :: images) 0 [] st1 Hd1)
          as [st2 ->].
        reflexivity.
Qed.

Lemma C2_engine_failure_witness :
  run_ocr engine_less_world (PagePixmap 0 300) true initial_state
  = (Ok [], State false 1 [EvLoadModel false]).
Proof.
  destruct (C2_engine_failure_yields_empty_pages engine_less_world initial_state
              eq_refl) as (H & _).
  apply (H eq_refl).
Defined.

(** C2, as the specification has it, fails: with an engine that cannot be
    constructed the pipeline returns, and the page has an empty body. *)
Lemma C2_engine_failure_counterexample :
  let run :=
    extract_all_pages_text basic_isalpha engine_less_world
                           (one_page_pdf scan_page) 300 10 false false
                           initial_state in
  engine_down engine_less_world initial_state /\
  ~ (exists e, fst run = Raise e) /\
  run = (Ok (marker 0),
         State false 2
               [EvPixmap 0 300; EvLoadModel false;
                EvPreprocess (PagePixmap 0 300) true; EvLoadModel false]).
Proof.
  assert (E : extract_all_pages_text basic_isalpha engine_less_world
                (one_page_pdf scan_page) 300 10 false false initial_state
              = (Ok (marker 0),
                 State false 2
                       [EvPixmap 0 300; EvLoadModel false;
                        EvPreprocess (PagePixmap 0 300) true; EvLoadModel false]))
    by (vm_compute; reflexivity).
  cbv zeta. rewrite E.
  split; [split; [reflexivity | intro n; reflexivity]|].
  split; [|reflexivity].
  intros [e He]. discriminate He.
Qed.

(** ** The first OCR attempt *)

Section FirstAttempt.

Variable W : world.

Lemma get_ocr_model_up (st : state) :
  engine_up W st ->
  _get_ocr_model W st
  = (Ok tt,
     if ocr_model_loaded st then st
     else State true (S (load_attempts st)) (log st ++ [EvLoadModel true])).
Proof.
  intro H. unfold _get_ocr_model.
  destruct (ocr_model_loaded st) eqn:El; [reflexivity|].
  destruct H as [H|H]; [congruence|]. now rewrite H.
Qed.

Lemma catch_bind_ok {A B} (m : M A) (k : A -> M B) (h : exn -> M B)
      (st st1 : state) (a : A) :
  m st = (Ok a, st1) -> catch (bind m k) h st = catch (k a) h st1.
Proof. intro E. unfold catch, bind. now rewrite E. Qed.

(** After its preprocessing call the strong attempt only adds to the log. *)
Lemma strong_attempt_log (img : image) (h : exn -> M str) (st : state) :
  (forall e, emits (at_dpi (raster_dpi img)) anything (h e)) ->
  exists rest,
    log (snd (catch (bind (preprocess_pil_image W img true)
                          (fun pil_strong => run_ocr W pil_strong false)) h st))
    = log st ++ EvPreprocess img true :: rest.
Proof.
  intro Hh. unfold preprocess_pil_image.
  change (catch
            (bind (bind (emit (EvPreprocess img true))
                        (fun _ => if preprocess_ok W img true
                                  then ret (Preprocessed img true)
                                  else raise RuntimeError))
                  (fun pil_strong => run_ocr W pil_strong false)) h st)
    with (catch
            (bind (if preprocess_ok W img true
                   then ret (Preprocessed img true) else raise RuntimeError)
                  (fun pil_strong => run_ocr W pil_strong false)) h
            (logged (EvPreprocess img true) st)).
  match goal with |- context [snd (?m ?s)] =>
    assert (Hm : emits (at_dpi (raster_dpi img)) anything m)
  end.
  { apply emits_catch; [|exact Hh].
    eapply emits_bind with (Q := from_dpi (raster_dpi img)).
    - apply emits_if; [now apply emits_ret | apply emits_raise].
    - intros a Ha. now apply run_ocr_emits. }
  destruct (Hm (logged (EvPreprocess img true) st)) as [(new & E & _) _].
  exists new. rewrite E. simpl. now rewrite <- app_assoc.
Qed.

(** Without strong mode the invoker fetches the engine, then preprocesses
    with the flag it derives from the size of the image. *)
Lemma plain_attempt_log (img : image) (st : state) :
  engine_up W st ->
  exists rest,
    log (snd (run_ocr W img true st))
    = log st
      ++ (if ocr_model_loaded st then [] else [EvLoadModel true])
      ++ EvPreprocess img (1800 * 1800 <? img_width W img * img_height W img)
      :: rest.
Proof.
  intro Hup. unfold run_ocr.
  rewrite (catch_bind_ok _ _ _ _ _ _ (get_ocr_model_up st Hup)).
  set (st1 := if ocr_model_loaded st then st else _).
  assert (Hlog1 : log st1
                  = log st ++ (if ocr_model_loaded st then [] else [EvLoadModel true])).
  { unfold st1. destruct (ocr_model_loaded st); simpl; [now rewrite app_nil_r|].
    reflexivity. }
  set (strong := 1800 * 1800 <? img_width W img * img_height W img).
  unfold preprocess_pil_image.
  match goal with
  | |- context [catch (bind (catch (bind (emit ?ev) (fun _ => ?X)) ?h) ?K) ?H st1] =>
      change (catch (bind (catch (bind (emit ev) (fun _ => X)) h) K) H st1)
        with (catch (bind (catch X h) K) H (logged ev st1));
      assert (Hm : emits (at_dpi (raster_dpi img)) anything
                         (catch (bind (catch X h) K) H))
  end.
  { apply emits_catch; [|intro; now apply emits_ret].
    eapply emits_bind with (Q := from_dpi (raster_dpi img)).
    - apply emits_catch; [|intro; now apply emits_ret].
      apply emits_if; [now apply emits_ret | apply emits_raise].
    - intros a Ha. cbv zeta. eapply emits_bind.
      + apply emits_emit. simpl. destruct (_ || _); simpl; exact Ha.
      + intros _ _. eapply emits_bind with (Q := anything);
          [apply emits_lift; now intros|].
        intros r _. now apply emits_ret. }
  destruct (Hm (logged (EvPreprocess img strong) st1)) as [(new & E & _) _].
  exists new. rewrite E. simpl. rewrite Hlog1. now rewrite <- !app_assoc.
Qed.

End FirstAttempt.

Lemma bind_log {A B} (P : event -> Prop) (m : M A) (k : A -> M B) (st : state) :
  (forall a, emits P anything (k a)) ->
  exists new, log (snd (bind m k st)) = log (snd (m st)) ++ new.
Proof.
  intro Hk. unfold bind. destruct (m st) as [[a|e] st1]; simpl.
  - destruct (Hk a st1) as [(new & E & _) _]. now exists new.
  - exists []. now rewrite app_nil_r.
Qed.

Lemma ocr_fallback_log (W : world) (i : nat) (p : page) (dpi : Z)
      (strong_mode : bool) (st : state) :
  get_pixmap_ok p (Z.max 300 dpi) = true ->
  log (snd (ocr_fallback W i p dpi strong_mode st))
  = log (snd (ocr_page W (PagePixmap i (Z.max 300 dpi)) strong_mode
                       (logged (EvPixmap i (Z.max 300 dpi)) st))).
Proof.
  intro Hok. unfold ocr_fallback, rasterize. cbv zeta.
  unfold bind at 1 2. unfold emit. rewrite Hok. unfold ret at 1.
  unfold bind at 1. fold (logged (EvPixmap i (Z.max 300 dpi)) st).
  destruct (ocr_page W _ strong_mode _) as [[page_text|e] st2];
    [destruct (nonempty (strip page_text))|]; reflexivity.
Qed.

(** C4, as the code has it. On the first OCR attempt of a page the image
    is preprocessed with strong = true when strong mode is requested, and
    otherwise, once the invoker has its engine, with the flag the invoker
    derives from the image: strong exactly when width x height exceeds
    1800 x 1800. *)
Theorem C4_first_attempt_preprocessing
        (W : world) (i : nat) (p : page) (dpi : Z) (strong_mode : bool)
        (st : state) :
  get_pixmap_ok p (Z.max 300 dpi) = true ->
  strong_mode = true \/ engine_up W st ->
  let pil_img := PagePixmap i (Z.max 300 dpi) in
  let strong :=
    strong_mode
    || (1800 * 1800 <? img_width W pil_img * img_height W pil_img) in
  exists rest,
    log (snd (ocr_fallback W i p dpi strong_mode st))
    = log st
      ++ EvPixmap i (Z.max 300 dpi)
      :: (if strong_mode || ocr_model_loaded st then [] else [EvLoadModel true])
      ++ EvPreprocess pil_img strong :: rest.
Proof.
  intros Hok Hup pil_img strong.
  rewrite (ocr_fallback_log W i p dpi strong_mode st Hok). fold pil_img.
  set (st1 := logged (EvPixmap i (Z.max 300 dpi)) st).
  assert (Hup1 : strong_mode = true \/ engine_up W st1) by exact Hup.
  unfold ocr_page. destruct strong_mode.
  - destruct (strong_attempt_log W pil_img
                (fun _ => run_ocr W pil_img true) st1) as [rest E].
    { intro. now apply run_ocr_emits. }
    exists rest. rewrite E. unfold st1, strong. simpl.
    now rewrite <- app_assoc.
  - match goal with |- context [bind ?m ?k st1] =>
      destruct (bind_log (at_dpi (raster_dpi pil_img)) m k st1) as [new E]
    end.
    { intro page_text. apply emits_if; [now apply emits_ret|].
      apply emits_catch; [|intro; now apply emits_ret].
      eapply emits_bind; [now apply preprocess_emits|].
      intros a Ha. now apply run_ocr_emits. }
    destruct Hup1 as [Hup1|Hup1]; [discriminate Hup1|].
    destruct (plain_attempt_log W pil_img st1 Hup1) as [rest E1].
    exists (rest ++ new). rewrite E, E1. unfold st1, strong. simpl.
    destruct (ocr_model_loaded st); simpl; now rewrite <- !app_assoc.
Qed.

Lemma C4_first_attempt_witness :
  exists rest,
    log (snd (ocr_fallback reading_world 0 scan_page 200 false initial_state))
    = EvPixmap 0 300 :: EvLoadModel true
        :: EvPreprocess (PagePixmap 0 300) true :: rest.
Proof.
  destruct (C4_first_attempt_preprocessing reading_world 0 scan_page 200 false
              initial_state) as [rest E].
  - reflexivity.
  - right. right. reflexivity.
  - exists rest. exact E.
Defined.

(** C4, as the specification has it, fails: without strong mode, the first
    attempt on an A4 page at 300 dpi preprocesses with strong = true. *)
Lemma C4_first_attempt_counterexample :
  let strong_mode := false in
  first_preprocess
    (log (snd (ocr_fallback reading_world 0 scan_page 300 strong_mode
                            initial_state)))
  = Some (PagePixmap 0 300, true)
  /\ true <> strong_mode.
Proof.
  cbv zeta. split; [vm_compute; reflexivity | discriminate].
Qed.

(** ** Stripped strings *)

Lemma lstrip_head (c : char) (s : str) :
  isspace c = false -> lstrip (c :: s) = c :: s.
Proof. intro H. simpl. now rewrite H. Qed.

Lemma lstrip_idem (s : str) : lstrip (lstrip s) = lstrip s.
Proof.
  induction s as [|c s IH]; [reflexivity|].
  simpl. destruct (isspace c) eqn:E; [exact IH | now apply lstrip_head].
Qed.

Lemma lstrip_length (s : str) : (length (lstrip s) <= length s)%nat.
Proof.
  induction s as [|c s IH]; simpl; [lia|].
  destruct (isspace c); simpl; lia.
Qed.

Lemma lstrip_fixed_head (s : str) :
  lstrip s = s -> s = [] \/ exists c s', s = c :: s' /\ isspace c = false.
Proof.
  destruct s as [|c s]; [now left|]. intro H. right. exists c, s.
  split; [reflexivity|]. simpl in H.
  destruct (isspace c); [|reflexivity].
  pose proof (lstrip_length s) as Hl. rewrite H in Hl. simpl in Hl. lia.
Qed.

Lemma lstrip_snoc (l : str) (c : char) :
  isspace c = false -> lstrip (l ++ [c]) = lstrip l ++ [c].
Proof.
  intro H. induction l as [|a l IH]; simpl.
  - now rewrite H.
  - destruct (isspace a); [exact IH | reflexivity].
Qed.

Lemma stripped_strip (s : str) :
  lstrip s = s -> lstrip (rev s) = rev s -> strip s = s.
Proof.
  intros H1 H2. unfold strip, rstrip. rewrite H1, H2. apply rev_involutive.
Qed.

Lemma strip_stripped (s : str) :
  lstrip (strip s) = strip s /\ lstrip (rev (strip s)) = rev (strip s).
Proof.
  unfold strip, rstrip. split.
  - destruct (lstrip_fixed_head (lstrip s) (lstrip_idem s))
      as [E|(c & t & E & Hc)]; rewrite E.
    + reflexivity.
    + cbn [rev]. rewrite (lstrip_snoc _ _ Hc). rewrite rev_app_distr.
      now apply lstrip_head.
  - rewrite rev_involutive. apply lstrip_idem.
Qed.

Lemma strip_idem (s : str) : strip (strip s) = strip s.
Proof. destruct (strip_stripped s). now apply stripped_strip. Qed.

Lemma lstrip_app_head (s t : str) :
  s <> [] -> lstrip s = s -> lstrip (s ++ t) = s ++ t.
Proof.
  intros Hne H. destruct (lstrip_fixed_head s H) as [E|(c & s' & E & Hc)];
    [contradiction|].
  subst. now apply lstrip_head.
Qed.

Lemma join_first (sep : str) (parts : list str) :
  parts <> [] -> exists p rest, In p parts /\ join sep parts = p ++ rest.
Proof.
  destruct parts as [|p [|q ps]]; [congruence | |]; intros _.
  - exists p, []. split; [now left | now rewrite app_nil_r].
  - exists p, (sep ++ join sep (q :: ps)). split; [now left | reflexivity].
Qed.

Lemma join_last (sep : str) (parts : list str) :
  parts <> [] -> exists p front, In p parts /\ join sep parts = front ++ p.
Proof.
  induction parts as [|p ps IH]; [congruence|]. intros _.
  destruct ps as [|q ps].
  - exists p, []. split; [now left | reflexivity].
  - destruct IH as (l & front & Hin & E); [discriminate|].
    exists l, (p ++ sep ++ front). split; [now right|].
    change (join sep (p :: q :: ps)) with (p ++ sep ++ join sep (q :: ps)).
    rewrite E. now rewrite <- !app_assoc.
Qed.

Lemma join_stripped (sep : str) (parts : list str) :
  (forall p, In p parts ->
             p <> [] /\ lstrip p = p /\ lstrip (rev p) = rev p) ->
  strip (join sep parts) = join sep parts.
Proof.
  intro H. destruct parts as [|p0 ps]; [reflexivity|].
  apply stripped_strip.
  - destruct (join_first sep (p0 :: ps)) as (p & rest & Hin & ->);
      [discriminate|].
    destruct (H p Hin) as (Hne & H1 & _). now apply lstrip_app_head.
  - destruct (join_last sep (p0 :: ps)) as (p & front & Hin & ->);
      [discriminate|].
    destruct (H p Hin) as (Hne & _ & H2). rewrite rev_app_distr.
    apply lstrip_app_head; [|exact H2].
    intro E. apply Hne. apply (f_equal (@rev char)) in E.
    now rewrite rev_involutive in E.
Qed.

(** The direct text of a page carries no leading or trailing whitespace. *)
Lemma direct_text_stripped (p : page) :
  strip (_direct_text_from_page p) = _direct_text_from_page p.
Proof.
  assert (Hplain : strip match plain_stripped p with
                         | Ok text => text
                         | Raise _ => []
                         end
                   = match plain_stripped p with
                     | Ok text => text
                     | Raise _ => []
                     end).
  { unfold plain_stripped. destruct (get_text_plain p) as [t|e]; simpl;
      [apply strip_idem | reflexivity]. }
  unfold _direct_text_from_page.
  destruct (get_text_blocks p) as [blocks|e]; cbn [rbind]; [|exact Hplain].
  set (lines := filter nonempty (map block_line (sort_by block_key_le
                                                  (filter is_str_block blocks)))).
  destruct (nonempty (strip (join [NL] lines))) eqn:E.
  - apply join_stripped. intros l Hl. unfold lines in Hl.
    apply filter_In in Hl. destruct Hl as [Hl Hne].
    split; [destruct l; [discriminate | discriminate]|].
    apply in_map_iff in Hl. destruct Hl as (b & <- & _).
    unfold block_line. destruct (blk_text b) as [t|].
    + apply strip_stripped.
    + split; reflexivity.
  - destruct (plain_stripped p) as [t|e] eqn:Ep; exact Hplain.
Qed.

(** ** Acceptance of the direct text *)

Lemma accepts_direct_iff (isalpha : char -> bool) (direct_text : str) :
  accepts_direct isalpha direct_text = Ok true
  <-> 25 <= len (strip direct_text)
      /\ _looks_corrupted_text isalpha direct_text = Ok false.
Proof.
  unfold accepts_direct.
  destruct (looks_corrupted_total isalpha direct_text) as [b Hb]. rewrite Hb.
  cbn [rbind]. split.
  - destruct (nonempty direct_text && (25 <=? len (strip direct_text))) eqn:E;
      [|discriminate].
    apply andb_true_iff in E. destruct E as [_ E]. apply Z.leb_le in E.
    intro H. inversion H as [Hn]. apply negb_true_iff in Hn. now subst.
  - intros [Hlen Hc]. inversion Hc; subst.
    assert (Hne : nonempty direct_text = true).
    { destruct direct_text; [|reflexivity]. exfalso.
      change (len (strip [])) with 0 in Hlen. lia. }
    apply Z.leb_le in Hlen. now rewrite Hne, Hlen.
Qed.

Lemma accepts_direct_total (isalpha : char -> bool) (direct_text : str) :
  exists b, accepts_direct isalpha direct_text = Ok b.
Proof.
  unfold accepts_direct.
  destruct (looks_corrupted_total isalpha direct_text) as [b Hb]. rewrite Hb.
  cbn [rbind]. destruct (_ && _); eauto.
Qed.

Lemma app_cons_not_self {A} (l rest : list A) (x : A) : l ++ x :: rest <> l.
Proof.
  intro H. apply (f_equal (@length A)) in H.
  rewrite length_app in H. simpl in H. lia.
Qed.

(** C1, as the code has it. Without force-OCR, the direct text of a page is
    its final output, with no call to the rasteriser, the preprocessor or
    the engine, if and only if its length once leading and trailing
    whitespace is removed is at least 25 characters and the heuristic says
    not corrupted; the body then is the direct text, verbatim. *)
Theorem C1_direct_text_acceptance
        (isalpha : char -> bool) (W : world) (i : nat) (p : page) (dpi : Z)
        (strong_mode : bool) (st : state) :
  let direct_text := _direct_text_from_page p in
  let run := page_entry isalpha W i (Ok p) dpi false strong_mode st in
  let accepted :=
    25 <= len (strip direct_text)
    /\ _looks_corrupted_text isalpha direct_text = Ok false in
  (log (snd run) = log st <-> accepted) /\
  (accepted -> run = (Ok (marker i ++ direct_text), st)).
Proof.
  intros direct_text run accepted.
  assert (Hrun : run
                 = match accepts_direct isalpha direct_text with
                   | Ok true => (Ok (marker i ++ strip direct_text), st)
                   | Ok false => ocr_fallback W i p dpi strong_mode st
                   | Raise e => (Raise e, st)
                   end).
  { unfold run, page_entry, bind, lift. fold direct_text.
    destruct (accepts_direct isalpha direct_text) as [[|]|e]; reflexivity. }
  pose proof (accepts_direct_iff isalpha direct_text) as Hiff.
  fold accepted in Hiff.
  destruct (accepts_direct_total isalpha direct_text) as [b Hb].
  rewrite Hb in Hrun. destruct b.
  - assert (Hacc : accepted) by now apply Hiff.
    assert (Hs : strip direct_text = direct_text)
      by apply direct_text_stripped.
    rewrite Hrun, Hs.
    split; [split; [intros _; exact Hacc | reflexivity] | reflexivity].
  - assert (Hno : ~ accepted) by (rewrite <- Hiff, Hb; discriminate).
    split; [|tauto]. split; [|tauto]. intro Hlog. exfalso.
    destruct (ocr_fallback_rasterizes W i p dpi strong_mode st) as [rest E].
    rewrite Hrun, E in Hlog. exact (app_cons_not_self _ _ _ Hlog).
Qed.

Lemma C1_direct_text_acceptance_witness :
  page_entry basic_isalpha reading_world 0 (Ok (text_page clean_text))
             300 false false initial_state
  = (Ok (marker 0 ++ clean_text), initial_state).
Proof.
  destruct (C1_direct_text_acceptance basic_isalpha reading_world 0
              (text_page clean_text) 300 false initial_state) as [_ H].
  apply H. split; [vm_compute; discriminate | vm_compute; reflexivity].
Defined.

(** C1, as the specification has it, fails: a direct text of 25 characters
    of which 13 are not whitespace is accepted. *)
Lemma C1_direct_text_acceptance_counterexample :
  let p := text_page spaced_text in
  let run := page_entry basic_isalpha reading_world 0 (Ok p)
                        300 false false initial_state in
  _direct_text_from_page p = spaced_text /\
  run = (Ok (marker 0 ++ spaced_text), initial_state) /\
  non_whitespace spaced_text = 13 /\
  ~ (25 <= non_whitespace (_direct_text_from_page p)
     /\ _looks_corrupted_text basic_isalpha (_direct_text_from_page p) = Ok false).
Proof.
  cbv zeta. split; [vm_compute; reflexivity|].
  split; [vm_compute; reflexivity|].
  split; [vm_compute; reflexivity|].
  intros [H _]. vm_compute in H. apply H. reflexivity.
Qed.

(** C10. The heuristic returns for every string, and returns "corrupted"
    for the empty one; a page whose direct text is empty goes to the OCR
    fallback. *)
Theorem C10_empty_text_is_corrupted (isalpha : char -> bool) :
  _looks_corrupted_text isalpha [] = Ok true /\
  (forall text, exists b, _looks_corrupted_text isalpha text = Ok b) /\
  (forall W i p dpi strong_mode st,
      _direct_text_from_page p = [] ->
      page_entry isalpha W i (Ok p) dpi false strong_mode st
      = ocr_fallback W i p dpi strong_mode st).
Proof.
  split; [reflexivity|]. split; [apply looks_corrupted_total|].
  intros W i p dpi strong_mode st E.
  unfold page_entry, bind, lift. now rewrite E.
Qed.

Lemma C10_empty_text_witness :
  page_entry basic_isalpha reading_world 0 (Ok scan_page) 300 false false
             initial_state
  = ocr_fallback reading_world 0 scan_page 300 false initial_state.
Proof.
  destruct (C10_empty_text_is_corrupted basic_isalpha) as (_ & _ & H).
  apply H. reflexivity.
Defined.

(** ** Confidence filtering *)

(** The structured branch keeps a text only when its score exceeds 0.5. *)
Lemma structured_lines_confident (rec_scores : list Q) (rec_texts : list str) :
  forall i t,
    In t (structured_lines i rec_texts rec_scores) ->
    exists k, nth_error rec_texts k = Some t
              /\ (5 # 10 < nth (i + k) rec_scores 0)%Q.
Proof.
  induction rec_texts as [|text texts IH]; intros i t Hin; [destruct Hin|].
  simpl in Hin.
  destruct (Qltb (5 # 10) (nth i rec_scores 0%Q)) eqn:E.
  - destruct Hin as [<-|Hin].
    + exists 0%nat. split; [reflexivity|].
      rewrite Nat.add_0_r. now apply Qltb_lt.
    + destruct (IH (S i) t Hin) as (k & Hk & Hs).
      exists (S k). split; [exact Hk|].
      now replace (i + S k)%nat with (S i + k)%nat by lia.
  - destruct (IH (S i) t Hin) as (k & Hk & Hs).
    exists (S k). split; [exact Hk|].
    now replace (i + S k)%nat with (S i + k)%nat by lia.
Qed.

(** C3 at a legacy response: a detection of confidence 0.1 reaches the
    output of [run_ocr], while the same text with the same score in a
    structured response is discarded. *)
Theorem C3_legacy_response_keeps_low_confidence :
  let legacy := a4_world (fun _ => true) (fun _ => Ok low_confidence_response) in
  let structured :=
    a4_world (fun _ => true)
             (fun _ => Ok (RespStructured [lit "junk"] [1 # 10])) in
  Forall (fun d => (det_conf d <= 5 # 10)%Q)
         (_flatten_result low_confidence_response) /\
  fst (run_ocr legacy (PagePixmap 0 300) true initial_state) = Ok (lit "junk") /\
  fst (run_ocr structured (PagePixmap 0 300) true initial_state) = Ok [].
Proof.
  cbv zeta. split; [|split]; [|vm_compute; reflexivity..].
  repeat constructor. simpl. vm_compute. discriminate.
Qed.

Lemma C5_looks_corrupted_witness :
  _looks_corrupted_text basic_isalpha (lit "IlIlIlIlIlIlIlIlIlIlIlabc") = Ok true
  <-> spec_looks_corrupted basic_isalpha (lit "IlIlIlIlIlIlIlIlIlIlIlabc").
Proof.
  apply C5_looks_corrupted_iff_four_conditions. vm_compute. discriminate.
Defined.

(** ** Worked examples *)

Example lit_cyrillic : lit "Ёя|" = [1025; 1103; 124]%N.
Proof. reflexivity. Qed.

Example broken_glyphs_codes : broken_glyphs = [73; 108; 124; 305; 304]%N.
Proof. reflexivity. Qed.

Example marker_of_first_page : marker 0 = lit "=== СТРАНИЦА 1 ===" ++ [NL].
Proof. reflexivity. Qed.

Example strip_example : strip (SP :: lit "a b" ++ [NL; SP]) = lit "a b".
Proof. reflexivity. Qed.

Example mostly_bars_is_corrupted :
  _looks_corrupted_text basic_isalpha (lit "IlIlIlIlIlIlIlIlIlIlIlabc") = Ok true.
Proof. vm_compute. reflexivity. Qed.

Example short_text_is_corrupted :
  _looks_corrupted_text basic_isalpha (lit "Сумма: 100 USD") = Ok true.
Proof. vm_compute. reflexivity. Qed.

Example cyrillic_sentence_is_clean :
  _looks_corrupted_text basic_isalpha
    (lit "Контрагент обязуется оплатить сумму контракта в валюте платежа")
  = Ok false.
Proof. vm_compute. reflexivity. Qed.

Example clean_text_is_clean :
  _looks_corrupted_text basic_isalpha clean_text = Ok false.
Proof. vm_compute. reflexivity. Qed.

Example median_of_four :
  median [20; 30; 10; 40] = Ok (PyFloat (int_truediv 50 2)).
Proof. reflexivity. Qed.

Example product_90_07 :
  (fmul (as_float (PyInt 90)) (float_literal (7 # 10))
   == 8866461766385663 # 140737488355328)%Q.
Proof. vm_compute. reflexivity. Qed.

Example wide_gap_makes_two_words :
  _merge_boxes_into_words
    [Box.Make (lit "b") 50 60 10 10; Box.Make (lit "a") 10 20 10 10] (PyInt 10)
  = lit "a b".
Proof. vm_compute. reflexivity. Qed.

Example narrow_gap_makes_one_word :
  _merge_boxes_into_words
    [Box.Make (lit "b") 27 37 10 10; Box.Make (lit "a") 10 20 10 10] (PyInt 10)
  = lit "ab".
Proof. vm_compute. reflexivity. Qed.
